(** * LocalCache: a TTL key/value cache with a wait-for-in-flight protocol

    Shallow embedding of [src/lib/local-cache.ts].

    Conventions of the model:
    - [Date.now()] is an explicit argument [now : Z] (milliseconds); TTLs
      and the numeric options are integers, so [NaN], infinities and
      fractions are outside the model.
    - [cache] (a JS [Map]) is a finite map over strings.  [lockCallbacks]
      is a plain object: its own properties are a finite map over strings,
      and a key that names a member of [Object.prototype] and has no own
      property reads as that inherited member.
    - A promise is a cell of a promise heap; its [resolve] function is
      identified with the index of the cell.  A promise resolved with a
      thenable follows the thenable; what the thenable does later is not
      part of the cache.  The heap also records every call of a [resolve]
      function, in call order.
    - The logger has no effect on the cache and is left out. *)

From stdpp Require Import base option list gmap strings.
From Stdlib Require Import ZArith Lia.

Open Scope Z_scope.

(** ** JavaScript values and truthiness *)

Module Js.

(** The values a caller can store ([unknown] in the source).  [VObj] is a
    reference to an object that has no callable [then], [VThenable] to an
    object or function that has one. *)
Inductive value :=
  | VUndefined
  | VNull
  | VBool (b : bool)
  | VNum (n : Z)
  | VStr (s : string)
  | VObj (ref : nat)
  | VThenable (ref : nat).

(** [ToBoolean] of the language. *)
Definition truthy (v : value) : bool :=
  match v with
  | VUndefined | VNull => false
  | VBool b => b
  | VNum n => negb (n =? 0)
  | VStr s => negb (String.eqb s "")
  | VObj _ => true
  | VThenable _ => true
  end.

(** The value has a callable [then]. *)
Definition thenable (v : value) : bool :=
  match v with
  | VThenable _ => true
  | _ => false
  end.

(** [ToBoolean] of an optional number ([undefined] when absent). *)
Definition truthy_num (x : option Z) : bool :=
  match x with
  | Some n => negb (n =? 0)
  | None => false
  end.

(** [x || d] for an optional number [x] and a number [d]. *)
Definition num_or (x : option Z) (d : Z) : Z :=
  match x with
  | Some n => if n =? 0 then d else n
  | None => d
  end.

(** [x ?? d], the nullish coalescing that the code does not use. *)
Definition num_nullish (x : option Z) (d : Z) : Z :=
  match x with
  | Some n => n
  | None => d
  end.

(** ToBoolean of an optional boolean. *)
Definition truthy_bool (x : option bool) : bool :=
  match x with
  | Some b => b
  | None => false
  end.

End Js.

Import Js.

(** ** Promises *)

Module Promise.

(** [Pending]: neither resolved nor rejected.  [Following v]: resolved
    with the thenable [v], whose outcome the promise will take.
    [Rejected]: rejected with the [TypeError] its executor raised. *)
Inductive state :=
  | Pending
  | Fulfilled (v : value)
  | Following (v : value)
  | Rejected.

(** The promise heap: the cells, and the log of the calls of [resolve]
    functions ([(p, v)] stands for [resolve_p(v)]). *)
Record heap := Heap {
  cells : list state;
  calls : list (nat * value)
}.

Definition empty : heap := Heap [] [].

(** [new Promise(...)]: a fresh pending cell; its index is returned. *)
Definition alloc (h : heap) : nat * heap :=
  (length (cells h), Heap (cells h ++ [Pending]) (calls h)).

(** The state a pending promise takes when it is resolved with [v]. *)
Definition outcome (v : value) : state :=
  if thenable v then Following v else Fulfilled v.

(** An [async] function that returns [v]: a fresh promise resolved with
    [v] by the runtime, with no [resolve] function called. *)
Definition alloc_returned (v : value) (h : heap) : nat * heap :=
  (length (cells h), Heap (cells h ++ [outcome v]) (calls h)).

(** Calling the [resolve] function of promise [p] with [v]: the first call
    resolves the promise, later calls are ignored. *)
Definition settle (p : nat) (v : value) (l : list state) : list state :=
  match l !! p with
  | Some Pending => <[p := outcome v]> l
  | _ => l
  end.

(** The executor of promise [p] raises: the promise is rejected, unless
    it was resolved before. *)
Definition reject (p : nat) (h : heap) : heap :=
  Heap (match cells h !! p with
        | Some Pending => <[p := Rejected]> (cells h)
        | _ => cells h
        end)
       (calls h).

Definition resolve (p : nat) (v : value) (h : heap) : heap :=
  Heap (settle p v (cells h)) (calls h ++ [(p, v)]).

(** How often the [resolve] function of [p] has been called. *)
Definition times_called (p : nat) (h : heap) : nat :=
  length (filter (λ c, c.1 = p) (calls h)).

End Promise.

(** ** The cache *)

Record LocalCacheOptions := {
  disabled : option bool;
  defaultTTLMs : option Z;
  cleanCacheIntervalMs : option Z;
  maxNumberOfCachedKeys : option Z
}.

Record LocalCacheItem := {
  value : Js.value;
  expiredOn : Z
}.

Definition DEFAULT_TTL_MS : Z := 5000.

Definition DEFAULT_CLEAN_CACHE_INTERVAL_MS : Z := 30000.

(** The attributes of an instance. *)
Record LocalCache := {
  options : option LocalCacheOptions;
  ttl : Z;
  cache : gmap string LocalCacheItem;
  lockCallbacks : gmap string (list nat)
}.

Definition with_cache (c : LocalCache) (m : gmap string LocalCacheItem) : LocalCache :=
  {| options := options c; ttl := ttl c; cache := m; lockCallbacks := lockCallbacks c |}.

Definition with_lockCallbacks (c : LocalCache) (m : gmap string (list nat)) : LocalCache :=
  {| options := options c; ttl := ttl c; cache := cache c; lockCallbacks := m |}.

(** [this.options?.disabled] as a condition. *)
Definition is_disabled (c : LocalCache) : bool :=
  truthy_bool (options c ≫= disabled).

Definition size (c : LocalCache) : Z := Z.of_nat (base.size (cache c)).

(** The names of the members of [Object.prototype], which every plain
    object such as [lockCallbacks] inherits. *)
Definition Object_prototype_members : list string :=
  ["constructor"; "hasOwnProperty"; "isPrototypeOf"; "propertyIsEnumerable";
   "toLocaleString"; "toString"; "valueOf"; "__proto__";
   "__defineGetter__"; "__defineSetter__"; "__lookupGetter__"; "__lookupSetter__"].

Definition inherited (key : string) : bool :=
  existsb (String.eqb key) Object_prototype_members.

(** What [this.lockCallbacks[key]] reads: nothing ([undefined]), the own
    array of callbacks, or a member inherited from [Object.prototype],
    which is truthy and is not an array. *)
Inductive slot :=
  | NoSlot
  | Callbacks (callbacks : list nat)
  | InheritedMember.

Definition lock_slot (locks : gmap string (list nat)) (key : string) : slot :=
  match locks !! key with
  | Some callbacks => Callbacks callbacks
  | None => if inherited key then InheritedMember else NoSlot
  end.

(** One step of the [forEach] of [clear]: the entry [(key, entry)] is
    deleted when [lockCallbacks[key]] is falsy and the entry has expired. *)
Definition clear_visit (now : Z) (locks : gmap string (list nat))
    (acc : gmap string LocalCacheItem * nat) (ke : string * LocalCacheItem)
    : gmap string LocalCacheItem * nat :=
  match lock_slot locks ke.1 with
  | NoSlot =>
      if expiredOn ke.2 <=? now then (delete ke.1 acc.1, S acc.2) else acc
  | _ => acc
  end.

(** The sweep of [clear]: the entries are visited once each; the result is
    the map after the deletions and [cleanCount]. *)
Definition clear_sweep (now : Z) (c : LocalCache) : gmap string LocalCacheItem * nat :=
  foldl (clear_visit now (lockCallbacks c)) (cache c, 0%nat) (map_to_list (cache c)).

Definition clear (now : Z) (c : LocalCache) : LocalCache :=
  with_cache c (clear_sweep now c).1.

(** [callbacks.forEach((i) => i(value))]. *)
Definition call_all (callbacks : list nat) (v : Js.value) (h : Promise.heap) : Promise.heap :=
  foldl (λ h i, Promise.resolve i v h) h callbacks.

(** [unlockKey] returns the new state, or [None] when it raises: on an
    inherited member [callbacks.forEach] is not a function, and the
    [TypeError] leaves the state as it was. *)
Definition unlockKey (key : string) (v : Js.value) (c : LocalCache) (h : Promise.heap)
    : option (LocalCache * Promise.heap) :=
  match lock_slot (lockCallbacks c) key with
  | Callbacks callbacks =>
      Some (with_lockCallbacks c (delete key (lockCallbacks c)), call_all callbacks v h)
  | NoSlot => Some (c, h)
  | InheritedMember => None
  end.

(** The state [unlockKey] leaves, whether it returns or raises. *)
Definition after_unlockKey (key : string) (v : Js.value) (c : LocalCache)
    (h : Promise.heap) : LocalCache * Promise.heap :=
  default (c, h) (unlockKey key v c h).

Definition getSync (key : string) (now : Z) (c : LocalCache) : Js.value :=
  if negb (is_disabled c) then
    match cache c !! key with
    | Some cacheItem =>
        if truthy (value cacheItem) && (now <? expiredOn cacheItem)
        then value cacheItem
        else VNull
    | None => VNull
    end
  else VNull.

Definition constructor (opts : option LocalCacheOptions) : LocalCache :=
  {| options := opts;
     ttl := num_or (opts ≫= defaultTTLMs) DEFAULT_TTL_MS;
     cache := ∅;
     lockCallbacks := ∅ |}.

(** The period handed to [setInterval] by the constructor. *)
Definition sweep_period (opts : option LocalCacheOptions) : Z :=
  num_or (opts ≫= cleanCacheIntervalMs) DEFAULT_CLEAN_CACHE_INTERVAL_MS.

(** The only error the class throws itself. *)
Inductive error :=
  | MaxLimitReach (maxNumberOfCachedKeys : Z).

(** How a call of [set] ends, with the state it leaves: it returns, it
    throws its own error, or the [TypeError] raised in [unlockKey] leaves
    it. *)
Inductive completion :=
  | Returned (c : LocalCache) (h : Promise.heap)
  | Thrown (e : error) (c : LocalCache) (h : Promise.heap)
  | ThrownTypeError (c : LocalCache) (h : Promise.heap).

Definition effectiveTtl (ttlArg : option Z) (c : LocalCache) : Z :=
  num_or ttlArg (ttl c).

Definition set (key : string) (v : Js.value) (ttlArg : option Z) (now : Z)
    (c : LocalCache) (h : Promise.heap) : completion :=
  let maxKeys := options c ≫= maxNumberOfCachedKeys in
  if negb (is_disabled c) then
    if negb (truthy_num maxKeys) || (size c <? default 0 maxKeys) then
      let expiredOn := now + effectiveTtl ttlArg c in
      let c1 := with_cache c (<[key := {| value := v; expiredOn := expiredOn |}]> (cache c)) in
      match unlockKey key v c1 h with
      | Some (c2, h2) => Returned c2 h2
      | None => ThrownTypeError c1 h
      end
    else Thrown (MaxLimitReach (default 0 maxKeys)) c h
  else Returned c h.

(** [get] returns the promise it creates.  With the cache disabled the
    [async] function returns [null].  With the cache enabled its promise
    follows the promise built inside, and the two are identified; on an
    inherited member [push] is not a function, and the [TypeError] raised
    in the executor rejects the promise. *)
Definition get (key : string) (waitIfSetInProcess : Js.value) (now : Z)
    (c : LocalCache) (h : Promise.heap) : LocalCache * Promise.heap * nat :=
  if is_disabled c then
    let '(p, h1) := Promise.alloc_returned VNull h in (c, h1, p)
  else
    let '(p, h0) := Promise.alloc h in
    let result := getSync key now c in
    if truthy result then (c, Promise.resolve p result h0, p)
    else if truthy waitIfSetInProcess then
      match lock_slot (lockCallbacks c) key with
      | NoSlot =>
          (with_lockCallbacks c (<[key := []]> (lockCallbacks c)),
           Promise.resolve p result h0, p)
      | Callbacks callbacks =>
          (with_lockCallbacks c (<[key := callbacks ++ [p]]> (lockCallbacks c)), h0, p)
      | InheritedMember => (c, Promise.reject p h0, p)
      end
    else (c, Promise.resolve p VNull h0, p).

(** The size check of [set]: true when the write goes through. *)
Definition admits (c : LocalCache) : bool :=
  negb (truthy_num (options c ≫= maxNumberOfCachedKeys))
  || (size c <? default 0 (options c ≫= maxNumberOfCachedKeys)).

(** The configured maximum is set, not zero, and reached by the number of
    entries. *)
Definition at_capacity (c : LocalCache) : Prop :=
  ∃ n, options c ≫= maxNumberOfCachedKeys = Some n ∧ n ≠ 0 ∧ n ≤ size c.

(** No maximum is configured, or it is zero. *)
Definition unbounded (c : LocalCache) : Prop :=
  options c ≫= maxNumberOfCachedKeys = None
  ∨ options c ≫= maxNumberOfCachedKeys = Some 0.

(** The effective TTL in the words of the specification:
    [ttl ?? defaultTTL], with [defaultTTL] the configured default or 5000. *)
Definition effectiveTtl_spec (ttlArg : option Z) (opts : option LocalCacheOptions) : Z :=
  num_nullish ttlArg (num_nullish (opts ≫= defaultTTLMs) 5000).

(** The effective TTL with zero read as not given, for the argument and
    for the configured default alike. *)
Definition effectiveTtl_nonzero (ttlArg : option Z) (opts : option LocalCacheOptions) : Z :=
  let defaultTTL :=
    match opts ≫= defaultTTLMs with
    | Some d => if decide (d = 0) then 5000 else d
    | None => 5000
    end in
  match ttlArg with
  | Some t => if decide (t = 0) then defaultTTL else t
  | None => defaultTTL
  end.

(** ** Histories of calls *)

(** The calls that reach an instance: the two public methods, and the
    sweep run by the timer. *)
Inductive op :=
  | OpSet (key : string) (v : Js.value) (ttlArg : option Z) (now : Z)
  | OpGet (key : string) (waitIfSetInProcess : Js.value) (now : Z)
  | OpClear (now : Z).

(** The state a call leaves; a [set] that throws leaves the state it had
    when the error was raised. *)
Definition step (o : op) (w : LocalCache * Promise.heap) : LocalCache * Promise.heap :=
  match o with
  | OpSet key v ttlArg now =>
      match set key v ttlArg now w.1 w.2 with
      | Returned c h => (c, h)
      | Thrown _ c h => (c, h)
      | ThrownTypeError c h => (c, h)
      end
  | OpGet key wait now => (get key wait now w.1 w.2).1
  | OpClear now => (clear now w.1, w.2)
  end.

Definition run (ops : list op) (w : LocalCache * Promise.heap) : LocalCache * Promise.heap :=
  foldl (λ w o, step o w) w ops.

(** [o] is a [set] of [key]. *)
Definition sets_key (key : string) (o : op) : bool :=
  match o with
  | OpSet k _ _ _ => String.eqb k key
  | _ => false
  end.

(** The callbacks held in [lockCallbacks] belong to promises that are
    pending and were never resolved; no callback is held twice. *)
Record wf (c : LocalCache) (h : Promise.heap) : Prop := {
  wf_pending : ∀ k ws p,
    lockCallbacks c !! k = Some ws → p ∈ ws →
    Promise.cells h !! p = Some Promise.Pending;
  wf_uncalled : ∀ k ws p,
    lockCallbacks c !! k = Some ws → p ∈ ws →
    Promise.times_called p h = 0%nat;
  wf_nodup : ∀ k ws, lockCallbacks c !! k = Some ws → NoDup ws;
  wf_disjoint : ∀ k1 k2 ws1 ws2 p,
    lockCallbacks c !! k1 = Some ws1 → lockCallbacks c !! k2 = Some ws2 →
    p ∈ ws1 → p ∈ ws2 → k1 = k2;
  wf_calls_alloc : ∀ p v,
    (p, v) ∈ Promise.calls h → (p < length (Promise.cells h))%nat
}.


(** [lockCallbacks[k]] is falsy. *)
Definition unheld (locks : gmap string (list nat)) (k : string) : bool :=
  match lock_slot locks k with
  | NoSlot => true
  | _ => false
  end.

(** The entry [e] of key [k] is one the sweep at [now] deletes. *)
Definition swept (now : Z) (locks : gmap string (list nat)) (k : string)
    (e : LocalCacheItem) : bool :=
  unheld locks k && (expiredOn e <=? now).

(** ** Sample configurations *)

Definition options_max (n : Z) : option LocalCacheOptions :=
  Some {| disabled := None; defaultTTLMs := None;
          cleanCacheIntervalMs := None; maxNumberOfCachedKeys := Some n |}.

Definition options_disabled : option LocalCacheOptions :=
  Some {| disabled := Some true; defaultTTLMs := None;
          cleanCacheIntervalMs := None; maxNumberOfCachedKeys := None |}.

(** A cache limited to one key, holding one key. *)
Definition full_cache : LocalCache * Promise.heap :=
  run [OpSet "a" (VStr "x") None 0] (constructor (options_max 1), Promise.empty).

(** A cache limited to three keys, holding one key. *)
Definition roomy_cache : LocalCache * Promise.heap :=
  run [OpSet "a" (VStr "x") None 0] (constructor (options_max 3), Promise.empty).

(** A cache limited to one key, holding one key, with a producer and a
    waiter registered on the key ["k"]. *)
Definition full_waited_cache : LocalCache * Promise.heap :=
  run [OpSet "a" (VStr "x") None 0; OpGet "k" (VBool true) 0; OpGet "k" (VBool true) 0]
      (constructor (options_max 1), Promise.empty).

(** A cache on whose key ["k"] a producer and two waiters are registered. *)
Definition waited_cache : LocalCache * Promise.heap :=
  run [OpGet "k" (VBool true) 0; OpGet "k" (VNum 2000) 0; OpGet "k" (VBool true) 0]
      (constructor None, Promise.empty).

(** ** Further notions *)

(** Every promise that is neither resolved nor rejected is held in a
    registration. *)
Definition no_orphan (c : LocalCache) (h : Promise.heap) : Prop :=
  ∀ p, Promise.cells h !! p = Some Promise.Pending →
    ∃ k ws, lockCallbacks c !! k = Some ws ∧ p ∈ ws.

(** The [resolve] function of a promise was never called while the
    promise is unresolved, or if it was rejected; for a promise that was
    resolved it was called once on an enabled cache ([d = false]), and
    never on a disabled one ([d = true]), where the runtime resolves the
    promise of the [async] function. *)
Definition resolved_once (d : bool) (h : Promise.heap) : Prop :=
  ∀ p, Promise.times_called p h
       = match Promise.cells h !! p with
         | Some (Promise.Fulfilled _) | Some (Promise.Following _) =>
             if d then 0%nat else 1%nat
         | _ => 0%nat
         end.

(** The calls [set(k, v)] for the pairs of [kvs], in order, at time [now]. *)
Definition writes (kvs : list (string * Js.value)) (now : Z) : list op :=
  map (λ kv, OpSet kv.1 kv.2 None now) kvs.

(** [o] is a run of the sweep. *)
Definition is_clear (o : op) : bool :=
  match o with
  | OpClear _ => true
  | _ => false
  end.

(** The time at which a call is made. *)
Definition op_time (o : op) : Z :=
  match o with
  | OpSet _ _ _ now => now
  | OpGet _ _ now => now
  | OpClear now => now
  end.

(** The calls of [ops] are made in the order of their times, none before
    [now]: the clock does not go back. *)
Fixpoint in_time_order (now : Z) (ops : list op) : bool :=
  match ops with
  | [] => true
  | o :: ops => (now <=? op_time o) && in_time_order (op_time o) ops
  end.

(** The time of the last call of [ops], or [now] when there is none. *)
Fixpoint last_time (now : Z) (ops : list op) : Z :=
  match ops with
  | [] => now
  | o :: ops => last_time (op_time o) ops
  end.

(** No key with a registration has an entry that a read at [now] or later
    would return. *)
Definition held_keys_miss (now : Z) (c : LocalCache) : Prop :=
  ∀ k e, is_Some (lockCallbacks c !! k) → cache c !! k = Some e →
    truthy (value e) = false ∨ expiredOn e ≤ now.

(** A cache limited to two keys, holding an entry that expires at 100 and
    one that expires at 5000. *)
Definition mixed_cache : LocalCache * Promise.heap :=
  run [OpSet "a" (VStr "x") (Some 100) 0; OpSet "b" (VStr "y") None 0]
      (constructor (options_max 2), Promise.empty).

(** A cache with an entry that expires at 100 on the key ["k"], and a
    registration on ["k"] made after the entry expired. *)
Definition held_cache : LocalCache * Promise.heap :=
  run [OpSet "k" (VStr "x") (Some 100) 0; OpGet "k" (VBool true) 200]
      (constructor None, Promise.empty).

(** * Properties *)

(** ** The promise heap *)

Section promise_heap.
Import Promise.
Implicit Types (h : heap) (l : list state) (p q : nat) (v : Js.value) (ws : list nat).

Lemma outcome_not_pending v : outcome v ≠ Pending.
Proof. unfold outcome. by destruct (thenable v). Qed.

Lemma settle_length p v l : length (settle p v l) = length l.
Proof.
unfold settle. destruct (l !! p) as [[| | |]|]; auto using length_insert.
Qed.

Lemma settle_lookup_ne p q v l : p ≠ q → settle p v l !! q = l !! q.
Proof.
  intros Hne. unfold settle.
destruct (l !! p) as [[| | |]|]; auto using list_lookup_insert_ne.
Qed.

Lemma settle_lookup_pending p v l :
  l !! p = Some Pending → settle p v l !! p = Some (outcome v).
Proof.
  intros Hp. unfold settle. rewrite Hp.
  apply list_lookup_insert_eq. by eapply lookup_lt_Some.
Qed.

Lemma settle_lookup_settled p q v st l :
  l !! q = Some st → st ≠ Pending → settle p v l !! q = Some st.
Proof.
intros Hq Hst. destruct (decide (p = q)) as [->|Hne].
- unfold settle. rewrite Hq. by destruct st.
- by rewrite settle_lookup_ne.
Qed.

Lemma call_all_cons p ws v h :
  call_all (p :: ws) v h = call_all ws v (resolve p v h).
Proof. reflexivity. Qed.

Lemma calls_call_all ws v h :
  calls (call_all ws v h) = calls h ++ map (λ p, (p, v)) ws.
Proof.
  revert h. induction ws as [|p ws IH]; intros h.
  - simpl. by rewrite app_nil_r.
  - rewrite call_all_cons, IH. simpl. by rewrite <- app_assoc.
Qed.

Lemma length_cells_call_all ws v h :
  length (cells (call_all ws v h)) = length (cells h).
Proof.
  revert h. induction ws as [|p ws IH]; intros h; [done|].
  rewrite call_all_cons, IH. apply settle_length.
Qed.

Lemma cells_call_all_notin q ws v h :
  q ∉ ws → cells (call_all ws v h) !! q = cells h !! q.
Proof.
  revert h. induction ws as [|p ws IH]; intros h Hq; [done|].
  apply not_elem_of_cons in Hq as [Hne Hq].
  rewrite call_all_cons, IH by done. simpl. by apply settle_lookup_ne.
Qed.

Lemma cells_call_all_settled q ws v st h :
  cells h !! q = Some st → st ≠ Pending →
  cells (call_all ws v h) !! q = Some st.
Proof.
revert h. induction ws as [|p ws IH]; intros h Hq Hst; [done|].
rewrite call_all_cons. apply IH; [|done]. simpl. by apply settle_lookup_settled.
Qed.

Lemma cells_call_all_in q ws v h :
  q ∈ ws → cells h !! q = Some Pending →
  cells (call_all ws v h) !! q = Some (outcome v).
Proof.
revert h. induction ws as [|p ws IH]; intros h Hin Hq.
- by apply elem_of_nil in Hin.
- rewrite call_all_cons. destruct (decide (p = q)) as [->|Hne].
  + apply cells_call_all_settled; [|apply outcome_not_pending].
    simpl. by apply settle_lookup_pending.
    + apply elem_of_cons in Hin as [->|Hin]; [done|].
      apply IH; [done|]. simpl. by rewrite settle_lookup_ne.
Qed.

Lemma times_called_resolve q p v h :
  times_called q (resolve p v h)
  = (times_called q h + if decide (p = q) then 1 else 0)%nat.
Proof.
  unfold times_called, resolve. simpl.
  rewrite filter_app, length_app. f_equal.
  rewrite filter_cons, filter_nil. simpl. by repeat case_decide.
Qed.

Lemma times_called_call_all q ws v h :
  times_called q (call_all ws v h)
  = (times_called q h + length (filter (λ p, p = q) ws))%nat.
Proof.
  revert h. induction ws as [|p ws IH]; intros h.
  - simpl. lia.
  - rewrite call_all_cons, IH, times_called_resolve, filter_cons.
    case_decide; simpl; lia.
Qed.

Lemma times_called_fresh q h :
  (∀ p v, (p, v) ∈ calls h → (p < length (cells h))%nat) →
  (length (cells h) ≤ q)%nat → times_called q h = 0%nat.
Proof.
  intros Hcalls Hq. unfold times_called.
  destruct (filter (λ c, c.1 = q) (calls h)) as [|[p v] l] eqn:Hf; [done|].
  assert ((p, v) ∈ filter (λ c : nat * Js.value, c.1 = q) (calls h)) as Hin
    by (rewrite Hf; left).
  apply list_elem_of_filter in Hin as [Hpq Hin]. simpl in Hpq. subst p.
  apply Hcalls in Hin. lia.
Qed.

Lemma filter_eq_NoDup_in q ws :
  NoDup ws → q ∈ ws → length (filter (λ p, p = q) ws) = 1%nat.
Proof.
  induction 1 as [|p ws Hp Hnd IH]; intros Hin.
  - by apply elem_of_nil in Hin.
  - rewrite filter_cons. case_decide as Hpq.
    + subst p. simpl. f_equal.
      destruct (filter (λ p, p = q) ws) as [|r l] eqn:Hf; [done|].
      assert (r ∈ filter (λ p, p = q) ws) as Hr by (rewrite Hf; left).
      apply list_elem_of_filter in Hr as [-> Hr]. done.
    + apply elem_of_cons in Hin as [->|Hin]; [done|]. by apply IH.
Qed.

Lemma filter_eq_notin q ws :
  q ∉ ws → length (filter (λ p, p = q) ws) = 0%nat.
Proof.
  intros Hq. destruct (filter (λ p, p = q) ws) as [|r l] eqn:Hf; [done|].
  assert (r ∈ filter (λ p, p = q) ws) as Hr by (rewrite Hf; left).
  apply list_elem_of_filter in Hr as [-> Hr]. done.
Qed.

End promise_heap.

(** ** The callback registry as the code reads it *)

Section registry.
Implicit Types (locks : gmap string (list nat)) (k : string) (ws : list nat).

Lemma lock_slot_Callbacks locks k ws :
  lock_slot locks k = Callbacks ws ↔ locks !! k = Some ws.
Proof.
unfold lock_slot. destruct (locks !! k) as [ws'|].
- split; congruence.
- by destruct (inherited k).
Qed.

Lemma lock_slot_NoSlot locks k :
  lock_slot locks k = NoSlot ↔ locks !! k = None ∧ inherited k = false.
Proof.
unfold lock_slot. destruct (locks !! k) as [ws'|].
- split; [done|]. by intros [? _].
- destruct (inherited k); split; try done. by intros [_ ?].
Qed.

Lemma lock_slot_InheritedMember locks k :
  lock_slot locks k = InheritedMember ↔ locks !! k = None ∧ inherited k = true.
Proof.
unfold lock_slot. destruct (locks !! k) as [ws'|].
- split; [done|]. by intros [? _].
- destruct (inherited k); split; try done. by intros [_ ?].
Qed.

Lemma unheld_true locks k :
  unheld locks k = true ↔ locks !! k = None ∧ inherited k = false.
Proof.
rewrite <- lock_slot_NoSlot. unfold unheld. by destruct (lock_slot locks k).
Qed.

Lemma unheld_registered locks k : is_Some (locks !! k) → unheld locks k = false.
Proof.
intros [ws Hk]. unfold unheld.
by rewrite (proj2 (lock_slot_Callbacks locks k ws) Hk).
Qed.

End registry.

(** ** The sweep *)

Section sweep.
Implicit Types (m : gmap string LocalCacheItem) (locks : gmap string (list nat)).
Implicit Types (l : list (string * LocalCacheItem)) (k : string) (n : nat).

Lemma clear_visit_swept now locks m n k e :
  clear_visit now locks (m, n) (k, e)
  = if swept now locks k e then (delete k m, S n) else (m, n).
Proof.
unfold clear_visit, swept, unheld. simpl.
by destruct (lock_slot locks k).
Qed.

Lemma sweep_lookup_None now locks l m n k :
  m !! k = None → (foldl (clear_visit now locks) (m, n) l).1 !! k = None.
Proof.
  revert m n. induction l as [|[k' e] l IH]; intros m n Hk; [done|].
  simpl. rewrite clear_visit_swept.
  destruct (swept now locks k' e); apply IH; [|done].
  rewrite lookup_delete. by case_decide.
Qed.

Lemma sweep_lookup_swept now locks l m n k e :
  (k, e) ∈ l → swept now locks k e = true →
  (foldl (clear_visit now locks) (m, n) l).1 !! k = None.
Proof.
  revert m n. induction l as [|[k' e'] l IH]; intros m n Hin Hsw.
  - by apply elem_of_nil in Hin.
  - simpl. rewrite clear_visit_swept.
    apply elem_of_cons in Hin as [[= <- <-]|Hin].
    + rewrite Hsw. apply sweep_lookup_None, lookup_delete_eq.
    + destruct (swept now locks k' e'); by apply IH.
Qed.

Lemma sweep_lookup_kept now locks l m n k :
  (∀ e, (k, e) ∈ l → swept now locks k e = false) →
  (foldl (clear_visit now locks) (m, n) l).1 !! k = m !! k.
Proof.
  revert m n. induction l as [|[k' e'] l IH]; intros m n Hkept; [done|].
  simpl. rewrite clear_visit_swept.
  assert (∀ e, (k, e) ∈ l → swept now locks k e = false) as Hl
    by (intros e He; apply Hkept; by right).
  destruct (swept now locks k' e') eqn:Hsw; rewrite IH by done; [|done].
  apply lookup_delete_ne. intros ->.
  rewrite Hkept in Hsw; [done|left].
Qed.

(** What a sweep leaves of each key. *)
Lemma clear_lookup now c k :
  cache (clear now c) !! k
  = match cache c !! k with
    | Some e => if swept now (lockCallbacks c) k e then None else Some e
    | None => None
    end.
Proof.
  unfold clear, clear_sweep. simpl.
  destruct (cache c !! k) as [e|] eqn:Hk.
  - destruct (swept now (lockCallbacks c) k e) eqn:Hsw.
    + eapply sweep_lookup_swept; [|done]. by apply elem_of_map_to_list.
    + rewrite sweep_lookup_kept, Hk; [done|].
      intros e' He'. apply elem_of_map_to_list in He'. congruence.
  - rewrite sweep_lookup_kept; [done|].
    intros e' He'. apply elem_of_map_to_list in He'. congruence.
Qed.

Lemma clear_lockCallbacks now c : lockCallbacks (clear now c) = lockCallbacks c.
Proof. reflexivity. Qed.

End sweep.

(** ** The equations of [getSync], [get] and [set] *)

Section equations.
Implicit Types (c : LocalCache) (h : Promise.heap) (k key : string).
Implicit Types (v w : Js.value) (now : Z).

Lemma getSync_falsy key now c :
  truthy (getSync key now c) = false → getSync key now c = VNull.
Proof.
  unfold getSync. destruct (negb (is_disabled c)); [|done].
  destruct (cache c !! key) as [e|]; [|done].
  destruct (truthy (value e)) eqn:Ht; simpl; [|done].
  destruct (now <? expiredOn e); [congruence|done].
Qed.

Lemma getSync_live key now c e :
  is_disabled c = false → cache c !! key = Some e →
  truthy (value e) = true → now < expiredOn e →
  getSync key now c = value e.
Proof.
  intros Hen He Ht Hlt. unfold getSync. rewrite Hen, He, Ht. simpl.
  apply Z.ltb_lt in Hlt. by rewrite Hlt.
Qed.

Lemma getSync_expired key now c e :
  cache c !! key = Some e → expiredOn e <= now → getSync key now c = VNull.
Proof.
  intros He Hle. unfold getSync. rewrite He.
  apply Z.ltb_ge in Hle. rewrite Hle, andb_false_r. by destruct (negb _).
Qed.

Lemma getSync_absent key now c :
  cache c !! key = None → getSync key now c = VNull.
Proof. intros He. unfold getSync. rewrite He. by destruct (negb _). Qed.

Lemma get_promise key w now c h :
  (get key w now c h).2 = length (Promise.cells h).
Proof.
unfold get. simpl. destruct (is_disabled c); [done|].
destruct (truthy (getSync key now c)); [done|].
destruct (truthy w); [|done]. by destruct (lock_slot (lockCallbacks c) key).
Qed.

Lemma get_disabled key w now c h :
  is_disabled c = true →
  get key w now c h
  = (c, (Promise.alloc_returned VNull h).2, length (Promise.cells h)).
Proof. intros Hd. unfold get. simpl. by rewrite Hd. Qed.

Lemma get_hit key w now c h :
  is_disabled c = false → truthy (getSync key now c) = true →
  get key w now c h
  = (c, Promise.resolve (length (Promise.cells h)) (getSync key now c)
          (Promise.alloc h).2,
     length (Promise.cells h)).
Proof. intros Hen Hhit. unfold get. simpl. by rewrite Hen, Hhit. Qed.

Lemma get_miss_nowait key w now c h :
  is_disabled c = false → truthy (getSync key now c) = false →
  truthy w = false →
  get key w now c h
  = (c, Promise.resolve (length (Promise.cells h)) VNull (Promise.alloc h).2,
     length (Promise.cells h)).
Proof. intros Hen Hmiss Hw. unfold get. simpl. by rewrite Hen, Hmiss, Hw. Qed.

Lemma get_miss_first key w now c h :
  is_disabled c = false → truthy (getSync key now c) = false →
  truthy w = true → lockCallbacks c !! key = None → inherited key = false →
  get key w now c h
  = (with_lockCallbacks c (<[key := []]> (lockCallbacks c)),
     Promise.resolve (length (Promise.cells h)) VNull (Promise.alloc h).2,
     length (Promise.cells h)).
Proof.
intros Hen Hmiss Hw Hk Hi. unfold get. simpl.
rewrite Hen, Hmiss, Hw, (getSync_falsy _ _ _ Hmiss).
by rewrite (proj2 (lock_slot_NoSlot _ _) (conj Hk Hi)).
Qed.

Lemma get_miss_wait key w now c h ws :
  is_disabled c = false → truthy (getSync key now c) = false →
  truthy w = true → lockCallbacks c !! key = Some ws →
  get key w now c h
  = (with_lockCallbacks c
       (<[key := ws ++ [length (Promise.cells h)]]> (lockCallbacks c)),
     (Promise.alloc h).2, length (Promise.cells h)).
Proof.
intros Hen Hmiss Hw Hk. unfold get. simpl. rewrite Hen, Hmiss, Hw.
by rewrite (proj2 (lock_slot_Callbacks _ _ _) Hk).
Qed.

(** A waiting miss on a key that reads as an inherited member: the
    promise is rejected and nothing is registered. *)
Lemma get_miss_inherited key w now c h :
  is_disabled c = false → truthy (getSync key now c) = false →
  truthy w = true → lockCallbacks c !! key = None → inherited key = true →
  get key w now c h
  = (c, Promise.reject (length (Promise.cells h)) (Promise.alloc h).2,
     length (Promise.cells h)).
Proof.
intros Hen Hmiss Hw Hk Hi. unfold get. simpl. rewrite Hen, Hmiss, Hw.
by rewrite (proj2 (lock_slot_InheritedMember _ _) (conj Hk Hi)).
Qed.

Lemma set_disabled key v t now c h :
  is_disabled c = true → set key v t now c h = Returned c h.
Proof. intros Hd. unfold set. by rewrite Hd. Qed.

Lemma set_thrown key v t now c h :
  is_disabled c = false → admits c = false →
  set key v t now c h
  = Thrown (MaxLimitReach (default 0 (options c ≫= maxNumberOfCachedKeys))) c h.
Proof. intros Hen Ha. unfold set, admits in *. by rewrite Hen, Ha. Qed.

Lemma set_stored key v t now c h :
  is_disabled c = false → admits c = true →
  set key v t now c h
  = let item := {| value := v; expiredOn := now + effectiveTtl t c |} in
    let c1 := with_cache c (<[key := item]> (cache c)) in
    match unlockKey key v c1 h with
    | Some (c2, h2) => Returned c2 h2
    | None => ThrownTypeError c1 h
    end.
Proof. intros Hen Ha. unfold set, admits in *. by rewrite Hen, Ha. Qed.

Lemma unlockKey_lockCallbacks key v c h :
  lockCallbacks (after_unlockKey key v c h).1 = delete key (lockCallbacks c).
Proof.
unfold after_unlockKey, unlockKey, lock_slot.
destruct (lockCallbacks c !! key) eqn:Hk; simpl; [done|].
rewrite delete_id by done. by destruct (inherited key).
Qed.

Lemma unlockKey_cache key v c h : cache (after_unlockKey key v c h).1 = cache c.
Proof.
unfold after_unlockKey, unlockKey. by destruct (lock_slot (lockCallbacks c) key).
Qed.

Lemma unlockKey_heap key v c h :
  (after_unlockKey key v c h).2
  = call_all (default [] (lockCallbacks c !! key)) v h.
Proof.
unfold after_unlockKey, unlockKey, lock_slot.
destruct (lockCallbacks c !! key); [done|]. by destruct (inherited key).
Qed.

Lemma unlockKey_options key v c h :
  options (after_unlockKey key v c h).1 = options c
  ∧ ttl (after_unlockKey key v c h).1 = ttl c.
Proof.
unfold after_unlockKey, unlockKey. by destruct (lock_slot (lockCallbacks c) key).
Qed.

(** The state after [set], whichever way it ends. *)
Lemma step_set_cases key v t now c h :
  step (OpSet key v t now) (c, h) = (c, h)
  ∨ (is_disabled c = false ∧ admits c = true
     ∧ step (OpSet key v t now) (c, h)
       = after_unlockKey key v
           (with_cache c
              (<[key := {| value := v; expiredOn := now + effectiveTtl t c |}]> (cache c)))
           h).
Proof.
simpl. destruct (is_disabled c) eqn:Hd; [left; by rewrite set_disabled|].
destruct (admits c) eqn:Ha.
- right. rewrite set_stored by done. simpl. split_and!; [done..|].
  unfold after_unlockKey. by destruct (unlockKey _ _ _ _) as [[c2 h2]|].
- left. by rewrite set_thrown.
Qed.

End equations.

(** ** The invariant of the callback registry *)

Section invariant.
Import Promise.
Implicit Types (c : LocalCache) (h : heap) (k key : string) (p q : nat).
Implicit Types (v w : Js.value) (now : Z) (ws : list nat).

Lemma wf_constructor opts : wf (constructor opts) empty.
Proof.
split; simpl; intros *; rewrite ?lookup_empty; try done.
intros Hin. by apply elem_of_nil in Hin.
Qed.

Lemma wf_registered_lt c h k ws p :
  wf c h → lockCallbacks c !! k = Some ws → p ∈ ws → (p < length (cells h))%nat.
Proof. intros Hwf Hk Hp. eapply lookup_lt_Some, wf_pending; eauto. Qed.

(** The cache attribute plays no part in the invariant. *)
Lemma wf_with_cache c h m : wf c h → wf (with_cache c m) h.
Proof. intros [H1 H2 H3 H4 H5]. by split. Qed.

(** Settling a fresh promise at once. *)
Lemma wf_alloc_resolve c h v :
  wf c h → wf c (resolve (length (cells h)) v (alloc h).2).
Proof.
intros Hwf. split.
- intros k ws p Hk Hp. simpl.
  pose proof (wf_registered_lt _ _ _ _ _ Hwf Hk Hp) as Hlt.
  rewrite settle_lookup_ne by lia. rewrite lookup_app_l by done.
  eapply wf_pending; eauto.
- intros k ws p Hk Hp.
  pose proof (wf_registered_lt _ _ _ _ _ Hwf Hk Hp) as Hlt.
  rewrite times_called_resolve. rewrite decide_False by lia.
  unfold times_called. simpl. fold (times_called p h).
  erewrite wf_uncalled; eauto.
- eapply wf_nodup; eauto.
- eapply wf_disjoint; eauto.
- intros p v' Hin. simpl in *. rewrite settle_length, length_app. simpl.
  apply elem_of_app in Hin as [Hin|Hin].
  + apply (wf_calls_alloc _ _ Hwf) in Hin. lia.
  + apply list_elem_of_singleton in Hin as [= -> ->]. lia.
Qed.

(** The first waiting miss: an empty registration. *)
Lemma wf_register_first c h key :
  wf c h → wf (with_lockCallbacks c (<[key := []]> (lockCallbacks c))) h.
Proof.
intros Hwf. split; simpl.
- intros k ws p Hk Hp. rewrite lookup_insert in Hk. case_decide.
  + injection Hk as <-. by apply elem_of_nil in Hp.
  + eapply wf_pending; eauto.
- intros k ws p Hk Hp. rewrite lookup_insert in Hk. case_decide.
  + injection Hk as <-. by apply elem_of_nil in Hp.
  + eapply wf_uncalled; eauto.
- intros k ws Hk. rewrite lookup_insert in Hk. case_decide.
  + injection Hk as <-. constructor.
  + eapply wf_nodup; eauto.
- intros k1 k2 ws1 ws2 p Hk1 Hk2 Hp1 Hp2.
  rewrite lookup_insert in Hk1. rewrite lookup_insert in Hk2.
  repeat case_decide; simplify_eq; try by apply elem_of_nil in Hp1.
  + by apply elem_of_nil in Hp2.
  + eapply wf_disjoint; eauto.
- apply (wf_calls_alloc _ _ Hwf).
Qed.

(** A later waiting miss: the fresh promise joins the registration. *)
Lemma wf_register_wait c h key ws :
  wf c h → lockCallbacks c !! key = Some ws →
  wf (with_lockCallbacks c (<[key := ws ++ [length (cells h)]]> (lockCallbacks c)))
     (alloc h).2.
Proof.
intros Hwf Hkey.
assert (∀ k ws' , lockCallbacks c !! k = Some ws' → length (cells h) ∉ ws') as Hfresh.
{ intros k ws' Hk Hin. pose proof (wf_registered_lt _ _ _ _ _ Hwf Hk Hin). lia. }
split; simpl.
- intros k ws' p Hk Hp. rewrite lookup_insert in Hk. case_decide.
  + injection Hk as <-. apply elem_of_app in Hp as [Hp|Hp].
    * rewrite lookup_app_l by (eapply wf_registered_lt; eauto).
      eapply wf_pending; eauto.
    * apply list_elem_of_singleton in Hp as ->.
      by rewrite lookup_app_r, Nat.sub_diag by done.
  + rewrite lookup_app_l by (eapply wf_registered_lt; eauto).
    eapply wf_pending; eauto.
- intros k ws' p Hk Hp. unfold times_called. simpl. fold (times_called p h).
  rewrite lookup_insert in Hk. case_decide.
  + injection Hk as <-. apply elem_of_app in Hp as [Hp|Hp].
    * eapply wf_uncalled; eauto.
    * apply list_elem_of_singleton in Hp as ->.
      apply times_called_fresh; [apply (wf_calls_alloc _ _ Hwf)|done].
  + eapply wf_uncalled; eauto.
- intros k ws' Hk. rewrite lookup_insert in Hk. case_decide.
  + injection Hk as <-. apply NoDup_app. split_and!.
    * eapply wf_nodup; eauto.
    * intros x Hx Hx'. apply list_elem_of_singleton in Hx' as ->.
      by eapply Hfresh.
    * apply NoDup_singleton.
  + eapply wf_nodup; eauto.
- intros k1 k2 ws1 ws2 p Hk1 Hk2 Hp1 Hp2.
  rewrite lookup_insert in Hk1. rewrite lookup_insert in Hk2.
  destruct (decide (key = k1)) as [Heq1|Hne1], (decide (key = k2)) as [Heq2|Hne2];
    [congruence| | |].
  + subst k1. injection Hk1 as <-. apply elem_of_app in Hp1 as [Hp1|Hp1].
    * eapply wf_disjoint; eauto.
    * apply list_elem_of_singleton in Hp1 as ->. by apply Hfresh in Hk2.
  + subst k2. injection Hk2 as <-. apply elem_of_app in Hp2 as [Hp2|Hp2].
    * eapply wf_disjoint; eauto.
    * apply list_elem_of_singleton in Hp2 as ->. by apply Hfresh in Hk1.
  + eapply wf_disjoint; eauto.
- intros p v Hin. rewrite length_app. simpl.
  apply (wf_calls_alloc _ _ Hwf) in Hin. lia.
Qed.

(** A heap that keeps the calls and the cells it had. *)
Lemma wf_extend c h h' :
  wf c h → Promise.calls h' = Promise.calls h →
  (length (cells h) ≤ length (cells h'))%nat →
  (∀ q, (q < length (cells h))%nat → cells h' !! q = cells h !! q) →
  wf c h'.
Proof.
intros Hwf Hcalls Hlen Hcells. split.
- intros k ws p Hk Hp. rewrite Hcells by (eapply wf_registered_lt; eauto).
  eapply wf_pending; eauto.
- intros k ws p Hk Hp. unfold times_called. rewrite Hcalls.
  eapply (wf_uncalled _ _ Hwf); eauto.
- eapply wf_nodup; eauto.
- eapply wf_disjoint; eauto.
- intros p v Hin. rewrite Hcalls in Hin.
  apply (wf_calls_alloc _ _ Hwf) in Hin. lia.
Qed.

Lemma wf_alloc_returned c h v : wf c h → wf c (alloc_returned v h).2.
Proof.
intros Hwf. apply (wf_extend c h); [done|done| |]; simpl.
- rewrite length_app. lia.
- intros q Hq. by rewrite lookup_app_l.
Qed.

Lemma wf_alloc_reject c h :
  wf c h → wf c (reject (length (cells h)) (alloc h).2).
Proof.
intros Hwf. apply (wf_extend c h); [done|done| |]; simpl.
- rewrite lookup_app_r, Nat.sub_diag by done. simpl.
  rewrite length_insert, length_app. lia.
- intros q Hq. rewrite lookup_app_r, Nat.sub_diag by done. simpl.
  rewrite list_lookup_insert_ne by lia. by rewrite lookup_app_l.
Qed.

(** Draining the registration of a key. *)
Lemma wf_unlockKey c h key v :
  wf c h → wf (after_unlockKey key v c h).1 (after_unlockKey key v c h).2.
Proof.
intros Hwf. unfold after_unlockKey, unlockKey, lock_slot.
destruct (lockCallbacks c !! key) as [ws|] eqn:Hkey;
  [|by destruct (inherited key)].
assert (∀ k ws' p, k ≠ key → lockCallbacks c !! k = Some ws' → p ∈ ws' → p ∉ ws)
  as Hother.
{ intros k ws' p Hne Hk Hp Hp'. apply Hne. eapply wf_disjoint; eauto. }
split; simpl.
- intros k ws' p Hk Hp. rewrite lookup_delete in Hk. case_decide; [done|].
  rewrite cells_call_all_notin by eauto. eapply wf_pending; eauto.
- intros k ws' p Hk Hp. rewrite lookup_delete in Hk. case_decide; [done|].
  rewrite times_called_call_all, filter_eq_notin by eauto.
  erewrite wf_uncalled; eauto.
- intros k ws' Hk. rewrite lookup_delete in Hk. case_decide; [done|].
  eapply wf_nodup; eauto.
- intros k1 k2 ws1 ws2 p Hk1 Hk2.
  rewrite lookup_delete in Hk1. rewrite lookup_delete in Hk2.
  repeat case_decide; try done. eapply wf_disjoint; eauto.
- intros p v' Hin. rewrite length_cells_call_all.
  rewrite calls_call_all in Hin. apply elem_of_app in Hin as [Hin|Hin].
  + by apply (wf_calls_alloc _ _ Hwf) in Hin.
  + apply list_elem_of_fmap in Hin as (q & [= -> ->] & Hq).
    eapply wf_registered_lt; eauto.
Qed.

Lemma wf_get key w now c h :
  wf c h → wf (get key w now c h).1.1 (get key w now c h).1.2.
Proof.
intros Hwf. destruct (is_disabled c) eqn:Hd.
{ rewrite get_disabled by done. by apply wf_alloc_returned. }
destruct (truthy (getSync key now c)) eqn:Hr.
{ rewrite get_hit by done. by apply wf_alloc_resolve. }
destruct (truthy w) eqn:Hw.
2:{ rewrite get_miss_nowait by done. by apply wf_alloc_resolve. }
destruct (lockCallbacks c !! key) as [ws|] eqn:Hk.
{ erewrite get_miss_wait by done. by apply wf_register_wait. }
destruct (inherited key) eqn:Hi.
- rewrite get_miss_inherited by done. by apply wf_alloc_reject.
- rewrite get_miss_first by done. simpl.
  pose proof (wf_alloc_resolve _ _ VNull Hwf) as Hwf'.
  by apply wf_register_first.
Qed.

Lemma wf_step o c h : wf c h → wf (step o (c, h)).1 (step o (c, h)).2.
Proof.
intros Hwf. destruct o as [key v t now|key w now|now].
- destruct (step_set_cases key v t now c h) as [->|(_ & _ & ->)]; [done|].
  by apply wf_unlockKey, wf_with_cache.
- by apply wf_get.
- by apply wf_with_cache.
Qed.

Lemma wf_run ops c h : wf c h → wf (run ops (c, h)).1 (run ops (c, h)).2.
Proof.
revert c h. induction ops as [|o ops IH]; intros c h Hwf; [done|].
simpl. pose proof (wf_step o _ _ Hwf) as Hwf'.
destruct (step o (c, h)) as [c' h']. by apply IH.
Qed.

End invariant.

(** ** What a call changes *)

Section effects.
Import Promise.
Implicit Types (c : LocalCache) (h : heap) (k key : string) (p q : nat).
Implicit Types (v w : Js.value) (now : Z) (ws : list nat) (o : op).

(** No call changes the options or the default TTL of the instance. *)
Lemma step_options o c h :
  options (step o (c, h)).1 = options c ∧ ttl (step o (c, h)).1 = ttl c.
Proof.
destruct o as [key v t now|key w now|now]; [| |done].
- destruct (step_set_cases key v t now c h) as [->|(_ & _ & ->)]; [done|].
  by destruct (unlockKey_options key v
       (with_cache c
          (<[key := {| value := v; expiredOn := now + effectiveTtl t c |}]> (cache c)))
       h) as [-> ->].
- change (step (OpGet key w now) (c, h)) with (get key w now c h).1.
  unfold get. simpl. destruct (is_disabled c); [done|].
  destruct (truthy (getSync key now c)); [done|].
  destruct (truthy w); [|done]. by destruct (lock_slot (lockCallbacks c) key).
Qed.

Lemma run_options ops c h :
  options (run ops (c, h)).1 = options c ∧ ttl (run ops (c, h)).1 = ttl c.
Proof.
revert c h. induction ops as [|o ops IH]; intros c h; [done|].
simpl. destruct (step_options o c h) as [Ho Ht].
destruct (step o (c, h)) as [c' h']. simpl in *.
destruct (IH c' h') as [-> ->]. done.
Qed.

(** The registration of a key after a call of [get]. *)
Lemma get_lockCallbacks key w now c h :
  lockCallbacks (get key w now c h).1.1 = lockCallbacks c
  ∨ (lockCallbacks c !! key = None
     ∧ lockCallbacks (get key w now c h).1.1 = <[key := []]> (lockCallbacks c))
  ∨ (∃ ws, lockCallbacks c !! key = Some ws
     ∧ lockCallbacks (get key w now c h).1.1
       = <[key := ws ++ [length (cells h)]]> (lockCallbacks c)).
Proof.
unfold get. simpl. destruct (is_disabled c); [by left|].
destruct (truthy (getSync key now c)); [by left|].
destruct (truthy w); [|by left]. unfold lock_slot.
destruct (lockCallbacks c !! key) as [ws|] eqn:Hk; simpl.
- right; right. by exists ws.
- destruct (inherited key); [by left|]. right; left. done.
Qed.

Lemma get_cache key w now c h : cache (get key w now c h).1.1 = cache c.
Proof.
unfold get. simpl. destruct (is_disabled c); [done|].
destruct (truthy (getSync key now c)); [done|].
destruct (truthy w); [|done]. by destruct (lock_slot (lockCallbacks c) key).
Qed.

(** The heap after [get]: the fresh cell, returned by the runtime,
    resolved at once, left alone, or rejected. *)
Lemma get_heap key w now c h :
  (is_disabled c = true ∧ (get key w now c h).1.2 = (alloc_returned VNull h).2)
  ∨ (is_disabled c = false
     ∧ ((∃ v, (get key w now c h).1.2 = resolve (length (cells h)) v (alloc h).2)
        ∨ (get key w now c h).1.2 = (alloc h).2
        ∨ (get key w now c h).1.2 = reject (length (cells h)) (alloc h).2)).
Proof.
unfold get. simpl. destruct (is_disabled c); [by left|right; split; [done|]].
destruct (truthy (getSync key now c)); [left; eauto|].
destruct (truthy w); [|left; eauto].
destruct (lock_slot (lockCallbacks c) key); [left; eauto|right; by left|right; by right].
Qed.

Lemma lookup_alloc p h :
  cells (alloc h).2 !! p
  = if decide (p = length (cells h)) then Some Pending else cells h !! p.
Proof.
simpl. case_decide as Hp.
- subst. by rewrite lookup_app_r, Nat.sub_diag.
- destruct (decide (p < length (cells h))%nat).
  + by rewrite lookup_app_l.
  + rewrite !lookup_ge_None_2; [done|lia|]. rewrite length_app. simpl. lia.
Qed.

Lemma lookup_alloc_returned p v h :
  cells (alloc_returned v h).2 !! p
  = if decide (p = length (cells h)) then Some (outcome v) else cells h !! p.
Proof.
simpl. case_decide as Hp.
- subst. by rewrite lookup_app_r, Nat.sub_diag.
- destruct (decide (p < length (cells h))%nat).
  + by rewrite lookup_app_l.
  + rewrite !lookup_ge_None_2; [done|lia|]. rewrite length_app. simpl. lia.
Qed.

Lemma lookup_alloc_resolve p v h :
  cells (resolve (length (cells h)) v (alloc h).2) !! p
  = if decide (p = length (cells h)) then Some (outcome v) else cells h !! p.
Proof.
change (cells (resolve (length (cells h)) v (alloc h).2))
  with (settle (length (cells h)) v (cells (alloc h).2)).
case_decide as Hp.
- subst. apply settle_lookup_pending. rewrite lookup_alloc. by rewrite decide_True.
- rewrite settle_lookup_ne by done. rewrite lookup_alloc. by rewrite decide_False.
Qed.


Lemma lookup_alloc_reject p h :
  cells (reject (length (cells h)) (alloc h).2) !! p
  = if decide (p = length (cells h)) then Some Rejected else cells h !! p.
Proof.
unfold reject. rewrite lookup_alloc, decide_True by done.
change (cells (Heap (<[length (cells h) := Rejected]> (cells (alloc h).2))
                    (calls (alloc h).2)))
  with (<[length (cells h) := Rejected]> (cells (alloc h).2)).
case_decide as Hp.
- subst. apply list_lookup_insert_eq. simpl. rewrite length_app. simpl. lia.
- rewrite list_lookup_insert_ne by done. rewrite lookup_alloc.
  by rewrite decide_False.
Qed.


(** A registered callback stays registered, whatever the time, until a
    [set] of its key. *)
Lemma registered_step o c h key ws p :
  lockCallbacks c !! key = Some ws → p ∈ ws → sets_key key o = false →
  ∃ ws', lockCallbacks (step o (c, h)).1 !! key = Some ws' ∧ p ∈ ws'.
Proof.
intros Hk Hp Ho. destruct o as [k v t now|k w now|now].
- simpl in Ho. apply String.eqb_neq in Ho.
  destruct (step_set_cases k v t now c h) as [->|(_ & _ & ->)]; [eauto|].
  rewrite unlockKey_lockCallbacks. simpl. rewrite lookup_delete_ne by done. eauto.
- change (step (OpGet k w now) (c, h)) with (get k w now c h).1.
  destruct (get_lockCallbacks k w now c h) as [->|[[Hn ->]|(ws0 & Hs & ->)]].
  + eauto.
  + rewrite lookup_insert_ne by congruence. eauto.
  + destruct (decide (k = key)) as [->|Hne].
    * rewrite lookup_insert_eq. eexists; split; [done|].
      apply elem_of_app. left. congruence.
    * rewrite lookup_insert_ne by done. eauto.
- simpl. eauto.
Qed.

Lemma registered_run ops c h key ws p :
  lockCallbacks c !! key = Some ws → p ∈ ws →
  forallb (λ o, negb (sets_key key o)) ops = true →
  ∃ ws', lockCallbacks (run ops (c, h)).1 !! key = Some ws' ∧ p ∈ ws'.
Proof.
revert c h ws. induction ops as [|o ops IH]; intros c h ws Hk Hp Hops; [eauto|].
simpl in Hops. apply andb_true_iff in Hops as [Ho Hops].
apply negb_true_iff in Ho.
destruct (registered_step o c h key ws p Hk Hp Ho) as (ws' & Hk' & Hp').
simpl. destruct (step o (c, h)) as [c' h']. eauto.
Qed.



End effects.

(** ** Writes *)

Section writes.
Import Promise.
Implicit Types (c : LocalCache) (h : heap) (k key : string) (p q : nat).
Implicit Types (v w : Js.value) (now : Z) (ws : list nat) (t : option Z).

Lemma admits_false_iff c : admits c = false ↔ at_capacity c.
Proof.
unfold admits, at_capacity, truthy_num.
destruct (options c ≫= maxNumberOfCachedKeys) as [n|]; simpl.
- rewrite orb_false_iff, negb_false_iff, negb_true_iff, Z.eqb_neq, Z.ltb_ge.
  split.
  + intros [Hn Hle]. by exists n.
  + intros (n' & [= <-] & Hn & Hle). done.
- split; [done|]. by intros (n & ? & _).
Qed.

Lemma admits_unbounded c : unbounded c → admits c = true.
Proof. unfold admits. by intros [-> | ->]. Qed.

(** A write that passes the size check: the entry, the registration and
    the callbacks in the state the call leaves, however it ends. *)
Lemma set_stores key v t now c h :
  is_disabled c = false → admits c = true →
  cache (step (OpSet key v t now) (c, h)).1
  = <[key := {| value := v; expiredOn := now + effectiveTtl t c |}]> (cache c)
  ∧ lockCallbacks (step (OpSet key v t now) (c, h)).1 = delete key (lockCallbacks c)
  ∧ (step (OpSet key v t now) (c, h)).2
    = call_all (default [] (lockCallbacks c !! key)) v h
  ∧ is_disabled (step (OpSet key v t now) (c, h)).1 = false.
Proof.
intros Hen Ha.
destruct (step_set_cases key v t now c h) as [Hsame|(_ & _ & ->)].
- simpl in Hsame. rewrite set_stored in Hsame by done. simpl in Hsame.
  simpl. rewrite set_stored by done. simpl.
  unfold unlockKey, lock_slot in *. simpl in *.
  destruct (lockCallbacks c !! key) as [ws|] eqn:Hk; simpl in *.
  + split_and!; done.
  + rewrite delete_id by done. destruct (inherited key); simpl; by split_and!.
- rewrite unlockKey_cache, unlockKey_lockCallbacks, unlockKey_heap. simpl.
  split_and!; try done.
  unfold is_disabled in *.
  by destruct (unlockKey_options key v
       (with_cache c
          (<[key := {| value := v; expiredOn := now + effectiveTtl t c |}]> (cache c)))
       h) as [-> _].
Qed.

(** A write that passes the size check returns, unless its key reads as
    an inherited member of [lockCallbacks]. *)
Lemma set_accepted key v t now c h :
  is_disabled c = false → admits c = true →
  (lockCallbacks c !! key = None → inherited key = false) →
  ∃ c' h',
    set key v t now c h = Returned c' h'
    ∧ cache c' = <[key := {| value := v; expiredOn := now + effectiveTtl t c |}]> (cache c)
    ∧ lockCallbacks c' = delete key (lockCallbacks c)
    ∧ h' = call_all (default [] (lockCallbacks c !! key)) v h.
Proof.
intros Hen Had Hown. rewrite set_stored by done. simpl.
unfold unlockKey, lock_slot. simpl.
destruct (lockCallbacks c !! key) as [ws|] eqn:Hk.
- eexists _, _. by split_and!.
- rewrite Hown by done. eexists _, _. split_and!; try done.
  simpl. by rewrite delete_id.
Qed.

(** A write that passes the size check, on a key that reads as an
    inherited member: the entry is stored, then the [TypeError] of
    [unlockKey] leaves [set]. *)
Lemma set_inherited key v t now c h :
  is_disabled c = false → admits c = true →
  lockCallbacks c !! key = None → inherited key = true →
  set key v t now c h
  = ThrownTypeError
      (with_cache c
         (<[key := {| value := v; expiredOn := now + effectiveTtl t c |}]> (cache c)))
      h.
Proof.
intros Hen Had Hk Hi. rewrite set_stored by done. simpl.
unfold unlockKey, lock_slot. simpl. by rewrite Hk, Hi.
Qed.

(** [set] returns normally only when the cache is disabled or the size
    check passes. *)
Lemma set_returned_inv key v t now c h c' h' :
  is_disabled c = false → set key v t now c h = Returned c' h' → admits c = true.
Proof.
intros Hen Hset. destruct (admits c) eqn:Ha; [done|].
by rewrite set_thrown in Hset.
Qed.

(** Reading back a truthy value before it expires, in the state the write
    leaves. *)
Lemma set_get_truthy key v t now now' w c h :
  is_disabled c = false → admits c = true →
  truthy v = true → now' < now + effectiveTtl t c →
  let s := step (OpSet key v t now) (c, h) in
  getSync key now' s.1 = v
  ∧ (get key w now' s.1 s.2).1.1 = s.1
  ∧ cells (get key w now' s.1 s.2).1.2 !! (get key w now' s.1 s.2).2
    = Some (outcome v).
Proof.
intros Hen Ha Hv Hlt s.
destruct (set_stores key v t now c h Hen Ha) as (Hc & _ & _ & Hen').
fold s in Hc, Hen'.
assert (getSync key now' s.1 = v) as Hg.
{ rewrite (getSync_live key now' s.1
             {| value := v; expiredOn := now + effectiveTtl t c |});
    [done|done| |done|done].
  rewrite Hc. apply lookup_insert_eq. }
split; [done|].
rewrite get_hit by (by rewrite ?Hg). simpl. rewrite Hg. split; [done|].
apply settle_lookup_pending. by rewrite lookup_app_r, Nat.sub_diag.
Qed.

(** [set] of one key and the state of another key. *)
Lemma set_frame key k2 v t now c h :
  key ≠ k2 →
  cache (step (OpSet key v t now) (c, h)).1 !! k2 = cache c !! k2
  ∧ lockCallbacks (step (OpSet key v t now) (c, h)).1 !! k2
    = lockCallbacks c !! k2.
Proof.
intros Hne.
destruct (step_set_cases key v t now c h) as [->|(_ & _ & ->)]; [done|].
rewrite unlockKey_cache, unlockKey_lockCallbacks. simpl.
by rewrite lookup_insert_ne, lookup_delete_ne.
Qed.

End writes.

(** ** The claims *)

Section claims.
Import Promise.
Implicit Types (c : LocalCache) (h : heap) (k key : string) (p q : nat).
Implicit Types (v w : Js.value) (now : Z) (ws : list nat) (t : option Z).

(** C1: the round trip fails for a falsy value.  On a fresh cache with the
    default options [set("k", 0)] at time 1000 stores the entry
    [{value: 0, expiredOn: 6000}], and [get("k")] at the same time, with
    the entry present and live, resolves with [null] and not with [0]:
    [getSync] tests the truthiness of the stored value. *)
Theorem set_get_zero_yields_null :
  ∃ c1 h1,
    set "k" (VNum 0) None 1000 (constructor None) Promise.empty = Returned c1 h1
    ∧ cache c1 !! "k" = Some {| value := VNum 0; expiredOn := 6000 |}
    ∧ getSync "k" 1000 c1 = VNull
    ∧ cells (get "k" VUndefined 1000 c1 h1).1.2 !! (get "k" VUndefined 1000 c1 h1).2
      = Some (Fulfilled VNull).
Proof. eexists _, _. split; [reflexivity|]. by vm_compute. Qed.

(** When [set] throws its own error: exactly when a nonzero maximum is
    configured and the number of entries has reached it; and a write that
    passes the size check returns, unless its key reads as an inherited
    member of [lockCallbacks]. *)
Lemma capacity_error_iff key v t now c h :
  is_disabled c = false →
  ((∃ e c' h', set key v t now c h = Thrown e c' h') ↔ at_capacity c)
  ∧ (at_capacity c →
       set key v t now c h
       = Thrown (MaxLimitReach (default 0 (options c ≫= maxNumberOfCachedKeys))) c h)
  ∧ (unbounded c → (lockCallbacks c !! key = None → inherited key = false) →
       ∃ c' h', set key v t now c h = Returned c' h').
Proof.
intros Hen. split_and!.
- split.
  + intros (e & c' & h' & Hset). apply admits_false_iff.
    destruct (admits c) eqn:Ha; [|done].
    rewrite set_stored in Hset by done. simpl in Hset.
    by destruct (unlockKey _ _ _ _) as [[c2 h2]|].
  + intros Hcap%admits_false_iff. rewrite set_thrown by done. eauto.
- intros Hcap%admits_false_iff. by rewrite set_thrown.
- intros Hu%admits_unbounded Hown.
  destruct (set_accepted key v t now c h Hen Hu Hown) as (c' & h' & Hr & _).
  eauto.
Qed.

(** C3: [set] raises with no maximum configured.  On a fresh cache with
    the default options, which is enabled and unbounded, [set] of the key
    ["constructor"] stores the entry and then ends in the [TypeError] that
    [unlockKey] raises: [lockCallbacks["constructor"]] reads the member
    inherited from [Object.prototype], which is truthy and has no
    [forEach]. *)
Theorem set_inherited_key_raises_unbounded :
  is_disabled (constructor None) = false
  ∧ unbounded (constructor None)
  ∧ ∃ c1,
      set "constructor" (VStr "v") None 1000 (constructor None) Promise.empty
      = ThrownTypeError c1 Promise.empty
      ∧ cache c1 !! "constructor" = Some {| value := VStr "v"; expiredOn := 6000 |}
      ∧ lockCallbacks c1 = ∅.
Proof.
split; [reflexivity|]. split; [by left|].
eexists. split; [reflexivity|]. split; [by vm_compute|reflexivity].
Qed.

(** Reading an expired entry without waiting. *)
Lemma get_expired_nowait key now c e w h :
  cache c !! key = Some e → expiredOn e ≤ now → truthy w = false →
  (get key w now c h).1.1 = c
  ∧ cells (get key w now c h).1.2 !! (get key w now c h).2 = Some (Fulfilled VNull).
Proof.
intros He Hexp Hw. destruct (is_disabled c) eqn:Hd.
- rewrite get_disabled by done. simpl. split; [done|].
  by rewrite lookup_app_r, Nat.sub_diag.
- rewrite get_miss_nowait;
    [|done|by rewrite (getSync_expired key now c e He Hexp)|done].
  simpl. split; [done|].
  change (Fulfilled VNull) with (outcome VNull).
  apply settle_lookup_pending. by rewrite lookup_app_r, Nat.sub_diag.
Qed.

(** C4: a [set] that passes the size check leaves the entry of its key
    with [expiredOn] equal to the time of the write plus the effective TTL,
    and from that time on [get] of the key resolves with [null].  In any
    state, an entry whose [expiredOn] is at or before the time of a read is
    read as if it were absent: [getSync] gives [null], [get] without
    waiting resolves with [null] and leaves the instance alone, and [get]
    with any wait argument does what it does on the cache without the
    entry. *)
Theorem expiry_set_at_write_and_honoured_by_reads key c :
  (∀ v t now h, is_disabled c = false → admits c = true →
     cache (step (OpSet key v t now) (c, h)).1 !! key
     = Some {| value := v; expiredOn := now + effectiveTtl t c |}
     ∧ ∀ now', now + effectiveTtl t c ≤ now' →
         getSync key now' (step (OpSet key v t now) (c, h)).1 = VNull
         ∧ cells (get key VUndefined now' (step (OpSet key v t now) (c, h)).1
                    (step (OpSet key v t now) (c, h)).2).1.2
             !! (get key VUndefined now' (step (OpSet key v t now) (c, h)).1
                   (step (OpSet key v t now) (c, h)).2).2
           = Some (Fulfilled VNull))
  ∧ (∀ e now, cache c !! key = Some e → expiredOn e ≤ now →
       getSync key now c = VNull
       ∧ (∀ w h, truthy w = false →
            (get key w now c h).1.1 = c
            ∧ cells (get key w now c h).1.2 !! (get key w now c h).2
              = Some (Fulfilled VNull))
       ∧ (∀ w h,
            let absent := with_cache c (delete key (cache c)) in
            (get key w now c h).1.2 = (get key w now absent h).1.2
            ∧ (get key w now c h).2 = (get key w now absent h).2
            ∧ lockCallbacks (get key w now c h).1.1
              = lockCallbacks (get key w now absent h).1.1)).
Proof.
split.
- intros v t now h Hen Ha.
  destruct (set_stores key v t now c h Hen Ha) as (Hc & _).
  destruct (step (OpSet key v t now) (c, h)) as [c' h']. simpl in *.
  assert (cache c' !! key
          = Some {| value := v; expiredOn := now + effectiveTtl t c |}) as He
    by (rewrite Hc; apply lookup_insert_eq).
  split; [done|]. intros now' Hexp. split.
  + by eapply getSync_expired.
  + by eapply get_expired_nowait.
- intros e now He Hexp.
  pose proof (getSync_expired key now c e He Hexp) as Hg.
  split_and!; [done| |].
  + intros w h Hw. by eapply get_expired_nowait.
  + intros w h absent.
    assert (getSync key now absent = VNull) as Hg'.
    { apply getSync_absent. simpl. apply lookup_delete_eq. }
    unfold get. rewrite Hg, Hg'.
    change (is_disabled absent) with (is_disabled c).
    change (lockCallbacks absent) with (lockCallbacks c). simpl.
    destruct (is_disabled c); [done|].
    destruct (truthy w); [|done]. by destruct (lock_slot (lockCallbacks c) key).
Qed.

Lemma expiry_set_at_write_and_honoured_by_reads_witness :
  cache (step (OpSet "constructor" (VStr "v") (Some 100) 1000)
              (constructor None, Promise.empty)).1 !! "constructor"
  = Some {| value := VStr "v"; expiredOn := 1100 |}
  ∧ getSync "a" 5000 full_cache.1 = VNull.
Proof.
split.
- destruct (expiry_set_at_write_and_honoured_by_reads "constructor" (constructor None))
    as [Hset _].
  destruct (Hset (VStr "v") (Some 100) 1000 Promise.empty) as [He _];
    [reflexivity|reflexivity|].
  exact He.
- eapply (expiry_set_at_write_and_honoured_by_reads "a" full_cache.1);
    [by vm_compute|by vm_compute].
Defined.

(** C5, as written, fails: on a fresh cache with the default options a
    write that passes [ttl = 0] at time 1000 stores [expiredOn = 6000],
    the default TTL, where [ttl ?? defaultTTL] gives a TTL of 0. *)
Lemma set_ttl_zero_takes_default :
  effectiveTtl_spec (Some 0) None = 0
  ∧ effectiveTtl (Some 0) (constructor None) = 5000
  ∧ ∃ c' h',
      set "k" (VStr "v") (Some 0) 1000 (constructor None) Promise.empty
      = Returned c' h'
      ∧ cache c' !! "k" = Some {| value := VStr "v"; expiredOn := 6000 |}
      ∧ expiredOn <$> cache c' !! "k"
        ≠ Some (1000 + effectiveTtl_spec (Some 0) None).
Proof.
split; [reflexivity|]. split; [reflexivity|].
eexists _, _. split; [reflexivity|]. split; [by vm_compute|].
by vm_compute.
Qed.

(** C5, amended: at any point of the life of a cache built with options
    [opts], the effective TTL of [set(k, v, ttl)] is [ttl] when it is given
    and not zero, and otherwise the default TTL of the cache, which is the
    configured [defaultTTLMs] when that is given and not zero, and 5000
    otherwise; the entry a write that passes the size check leaves expires
    at the write time plus that TTL. *)
Theorem effective_ttl_reads_zero_as_unset opts ops key v t now c h :
  run ops (constructor opts, Promise.empty) = (c, h) →
  is_disabled c = false → admits c = true →
  effectiveTtl t c = effectiveTtl_nonzero t opts
  ∧ cache (step (OpSet key v t now) (c, h)).1 !! key
    = Some {| value := v; expiredOn := now + effectiveTtl_nonzero t opts |}.
Proof.
intros Hrun Hen Ha.
assert (effectiveTtl t c = effectiveTtl_nonzero t opts) as Httl.
{ destruct (run_options ops (constructor opts) Promise.empty) as [_ Ht].
  rewrite Hrun in Ht. simpl in Ht.
  unfold effectiveTtl, effectiveTtl_nonzero, num_or. rewrite Ht.
  destruct (opts ≫= defaultTTLMs) as [d|], t as [n|];
    repeat case_decide; subst; simpl;
    rewrite ?(proj2 (Z.eqb_neq _ _)) by done; done. }
split; [done|].
destruct (set_stores key v t now c h Hen Ha) as (Hc & _).
rewrite Hc, Httl. apply lookup_insert_eq.
Qed.

Lemma effective_ttl_reads_zero_as_unset_witness :
  effectiveTtl (Some 0) roomy_cache.1 = 5000
  ∧ effectiveTtl (Some 250) roomy_cache.1 = 250.
Proof.
split.
- apply (effective_ttl_reads_zero_as_unset (options_max 3)
           [OpSet "a" (VStr "x") None 0] "b" VNull (Some 0) 10
           roomy_cache.1 roomy_cache.2);
    reflexivity.
- apply (effective_ttl_reads_zero_as_unset (options_max 3)
           [OpSet "a" (VStr "x") None 0] "b" VNull (Some 250) 10
           roomy_cache.1 roomy_cache.2);
    reflexivity.
Defined.

(** A disabled instance is left as it is by [set] and by [get]. *)
Lemma disabled_calls c :
  is_disabled c = true →
  (∀ key v t now h, set key v t now c h = Returned c h)
  ∧ (∀ key w now h,
       (get key w now c h).1.1 = c
       ∧ cells (get key w now c h).1.2 !! (get key w now c h).2
         = Some (Fulfilled VNull)).
Proof.
intros Hd. split.
- intros. by apply set_disabled.
- intros. rewrite get_disabled by done. simpl. split; [done|].
  by rewrite lookup_app_r, Nat.sub_diag.
Qed.

Lemma clear_empty now c : cache c = ∅ → clear now c = c.
Proof.
intros Hc. unfold clear, clear_sweep. rewrite Hc, map_to_list_empty. simpl.
destruct c; simpl in *. by subst.
Qed.

(** C6: a cache built with [disabled = true] stays the instance the
    constructor built, with an empty entry store and an empty callback
    registry, through any history of calls; on it [set] returns normally
    and changes nothing, and [get], with any wait argument, changes nothing
    and resolves at once with [null]. *)
Theorem disabled_cache_is_inert opts ops h0 :
  opts ≫= disabled = Some true →
  let c := (run ops (constructor opts, h0)).1 in
  c = constructor opts
  ∧ cache c = ∅ ∧ lockCallbacks c = ∅
  ∧ (∀ key v t now h, set key v t now c h = Returned c h)
  ∧ (∀ key w now h,
       (get key w now c h).1.1 = c
       ∧ cells (get key w now c h).1.2 !! (get key w now c h).2
         = Some (Fulfilled VNull)).
Proof.
intros Hopts.
assert (is_disabled (constructor opts) = true) as Hd
  by (unfold is_disabled; simpl; by rewrite Hopts).
assert ((run ops (constructor opts, h0)).1 = constructor opts) as ->.
{ revert h0. induction ops as [|o ops IH]; intros h0; [done|]. simpl.
  assert ((step o (constructor opts, h0)).1 = constructor opts) as Hstep.
  { destruct o as [key v t now|key w now|now]; simpl.
    - by rewrite (proj1 (disabled_calls _ Hd)).
    - apply (proj2 (disabled_calls _ Hd)).
    - by apply clear_empty. }
  destruct (step o (constructor opts, h0)) as [c' h']. simpl in Hstep.
  subst c'. apply IH. }
simpl. split_and!; [done..| |]; by apply disabled_calls.
Qed.

Lemma disabled_cache_is_inert_witness :
  set "k" (VStr "v") None 5 (constructor options_disabled) Promise.empty
  = Returned (constructor options_disabled) Promise.empty.
Proof.
apply (disabled_cache_is_inert options_disabled [] Promise.empty).
reflexivity.
Defined.

(** What a sweep at time [now] does: it deletes an entry exactly when its
    [expiredOn] is at or before [now], its key has no registration and
    its key does not read as an inherited member of [lockCallbacks]; every
    other entry is kept as it is, no entry appears, and [lockCallbacks] is
    the same after the sweep. *)
Lemma sweep_characterised now c :
  (∀ k,
     cache (clear now c) !! k
     = match cache c !! k with
       | Some e =>
           if decide (expiredOn e ≤ now ∧ lockCallbacks c !! k = None
                      ∧ inherited k = false)
           then None else Some e
       | None => None
       end)
  ∧ lockCallbacks (clear now c) = lockCallbacks c.
Proof.
split; [|done].
intros k. rewrite clear_lookup. destruct (cache c !! k) as [e|]; [|done].
unfold swept. case_decide as Hd.
- destruct Hd as (Hle & Hk & Hi).
  rewrite (proj2 (unheld_true _ _) (conj Hk Hi)).
  apply Z.leb_le in Hle. by rewrite Hle.
- destruct (unheld (lockCallbacks c) k) eqn:Hu; [|done].
  apply unheld_true in Hu as [Hk Hi].
  destruct (Z.leb_spec (expiredOn e) now); [|done]. by destruct Hd.
Qed.

(** C7: a sweep leaves an expired entry whose key has no registration.
    On a fresh cache with the default options, [set("constructor", "x",
    100)] at time 0 stores the entry (and ends in a [TypeError]); the key
    has no registration, the entry has expired at time 200, and the sweep
    at time 200 keeps it and counts nothing:
    [!this.lockCallbacks["constructor"]] is false, because the lookup
    finds the member inherited from [Object.prototype]. *)
Theorem sweep_keeps_expired_inherited_key :
  ∃ c1,
    set "constructor" (VStr "x") (Some 100) 0 (constructor None) Promise.empty
    = ThrownTypeError c1 Promise.empty
    ∧ cache c1 !! "constructor" = Some {| value := VStr "x"; expiredOn := 100 |}
    ∧ lockCallbacks c1 !! "constructor" = None
    ∧ cache (clear 200 c1) !! "constructor"
      = Some {| value := VStr "x"; expiredOn := 100 |}
    ∧ (clear_sweep 200 c1).2 = 0%nat.
Proof.
eexists. split; [reflexivity|]. split_and!; by vm_compute.
Qed.

(** C9: when [set] throws, the instance and the promise heap are the ones
    before the call: no entry is written, [lockCallbacks] is the same, and
    no callback is called, so every callback registered for the key stays
    registered and its promise is as it was. *)
Theorem failed_set_changes_nothing key v t now c h e c' h' :
  set key v t now c h = Thrown e c' h' →
  c' = c ∧ h' = h
  ∧ cache c' = cache c ∧ lockCallbacks c' = lockCallbacks c
  ∧ ∀ ws p, lockCallbacks c !! key = Some ws → p ∈ ws →
      lockCallbacks c' !! key = Some ws
      ∧ cells h' !! p = cells h !! p
      ∧ times_called p h' = times_called p h.
Proof.
intros Hset. unfold set in Hset.
destruct (negb (is_disabled c)); [|done].
destruct (_ || _).
- by destruct (unlockKey _ _ _ _) as [[c2 h2]|].
- injection Hset as _ <- <-. by split_and!.
Qed.

Lemma failed_set_changes_nothing_witness :
  set "k" (VStr "v") None 1 full_waited_cache.1 full_waited_cache.2
  = Thrown (MaxLimitReach 1) full_waited_cache.1 full_waited_cache.2
  ∧ lockCallbacks full_waited_cache.1 !! "k" = Some [1%nat]
  ∧ cells full_waited_cache.2 !! 1%nat = Some Pending.
Proof.
split; [reflexivity|].
destruct (failed_set_changes_nothing "k" (VStr "v") None 1
            full_waited_cache.1 full_waited_cache.2
            (MaxLimitReach 1) full_waited_cache.1 full_waited_cache.2)
  as (_ & _ & _ & _ & Hws); [reflexivity|].
destruct (Hws [1%nat] 1%nat) as (Hk & Hp & _); [by vm_compute|by left|].
split; [exact Hk|]. etrans; [exact Hp|]. by vm_compute.
Defined.

(** C10: for two keys [key ≠ k2], [set] of [key], however it ends, leaves
    the entry and the registration of [k2] as they were; [get] of [key],
    with any wait argument, leaves the whole entry store as it was and the
    registration of [k2] as it was. *)
Theorem calls_leave_other_keys_alone key k2 c h :
  key ≠ k2 →
  (∀ v t now,
     cache (step (OpSet key v t now) (c, h)).1 !! k2 = cache c !! k2
     ∧ lockCallbacks (step (OpSet key v t now) (c, h)).1 !! k2
       = lockCallbacks c !! k2)
  ∧ (∀ w now,
       cache (get key w now c h).1.1 = cache c
       ∧ lockCallbacks (get key w now c h).1.1 !! k2 = lockCallbacks c !! k2).
Proof.
intros Hne. split.
- intros v t now. by apply set_frame.
- intros w now. split; [apply get_cache|].
  destruct (get_lockCallbacks key w now c h) as [->|[[_ ->]|(ws & _ & ->)]];
    [done|by rewrite lookup_insert_ne..].
Qed.

Lemma calls_leave_other_keys_alone_witness :
  lockCallbacks (step (OpSet "a" (VStr "x") None 7) waited_cache).1 !! "k"
  = Some [1%nat; 2%nat]
  ∧ cache (get "k" (VBool true) 9 roomy_cache.1 roomy_cache.2).1.1 !! "a"
    = Some {| value := VStr "x"; expiredOn := 5000 |}.
Proof.
split.
- destruct (calls_leave_other_keys_alone "a" "k" waited_cache.1 waited_cache.2)
    as [Hset _]; [done|].
  destruct (Hset (VStr "x") None 7) as [_ Hl].
  etrans; [exact Hl|]. by vm_compute.
- destruct (calls_leave_other_keys_alone "k" "a" roomy_cache.1 roomy_cache.2)
    as [_ Hget]; [done|].
  destruct (Hget (VBool true) 9) as [Hc _].
  rewrite Hc. by vm_compute.
Defined.



Lemma waited_cache_wf : wf waited_cache.1 waited_cache.2.
Proof. apply wf_run, wf_constructor. Qed.


(** C8: on an enabled cache every truthy wait argument, a number
    included, makes [get] do what it does for [true]; and the callback a
    waiting miss adds to the registration of [key] is not called, its
    promise stays pending and it stays registered, through any calls of
    [get], of [set] on other keys and of the sweep, at any times, as long
    as no [set] of [key] is among them. *)
Theorem waiter_has_no_deadline key w now c h :
  wf c h → is_disabled c = false → truthy w = true →
  get key w now c h = get key (VBool true) now c h
  ∧ (∀ ws ops,
       truthy (getSync key now c) = false → lockCallbacks c !! key = Some ws →
       forallb (λ o, negb (sets_key key o)) ops = true →
       let r := get key w now c h in
       cells (run ops r.1).2 !! r.2 = Some Pending
       ∧ times_called r.2 (run ops r.1).2 = 0%nat
       ∧ ∃ ws', lockCallbacks (run ops r.1).1 !! key = Some ws' ∧ r.2 ∈ ws').
Proof.
intros Hwf Hen Hw. split.
- unfold get. by rewrite Hw.
- intros ws ops Hmiss Hk Hops r.
  pose proof (wf_get key w now c h Hwf) as Hwf'. fold r in Hwf'.
  assert (lockCallbacks r.1.1 !! key = Some (ws ++ [r.2])) as Hk'.
  { unfold r. rewrite (get_miss_wait _ _ _ _ _ ws) by done. simpl.
    apply lookup_insert_eq. }
  assert (r.2 ∈ ws ++ [r.2]) as Hin by (apply elem_of_app; right; left).
  destruct r as [[c1 h1] p]. simpl in *.
  destruct (registered_run ops c1 h1 key _ p Hk' Hin Hops) as (ws' & Hws' & Hp').
  pose proof (wf_run ops c1 h1 Hwf') as Hwf''.
  split_and!.
  + eapply wf_pending; eauto.
  + eapply wf_uncalled; eauto.
  + eauto.
Qed.

Lemma waiter_has_no_deadline_witness :
  get "k" (VNum 2000) 0 waited_cache.1 waited_cache.2
  = get "k" (VBool true) 0 waited_cache.1 waited_cache.2
  ∧ cells (run [OpClear 2000; OpGet "k" VUndefined 5000; OpSet "a" VNull None 9000]
             (get "k" (VNum 2000) 0 waited_cache.1 waited_cache.2).1).2 !! 3%nat
    = Some Pending.
Proof.
destruct (waiter_has_no_deadline "k" (VNum 2000) 0 waited_cache.1 waited_cache.2
            waited_cache_wf) as [Hsame Hstay]; [reflexivity|reflexivity|].
split; [exact Hsame|].
eapply (Hstay [1%nat; 2%nat]
          [OpClear 2000; OpGet "k" VUndefined 5000; OpSet "a" VNull None 9000]);
  [reflexivity|by vm_compute|reflexivity].
Defined.

End claims.

(** * Further properties *)

(** ** The size of the entry store *)

Section store_size.
Import Promise.
Implicit Types (c : LocalCache) (h : heap) (k key : string) (p q : nat).
Implicit Types (v w : Js.value) (now : Z) (ws : list nat) (t : option Z) (o : op).
Implicit Types (m : gmap string LocalCacheItem) (l : list (string * LocalCacheItem)).

(** The sweep over entries that are all in the map, with distinct keys:
    each deletion is counted once. *)
Lemma sweep_size now locks l m n :
  NoDup l.*1 → (∀ k e, (k, e) ∈ l → m !! k = Some e) →
  (base.size (foldl (clear_visit now locks) (m, n) l).1
   + (foldl (clear_visit now locks) (m, n) l).2
   = base.size m + n)%nat.
Proof.
revert m n. induction l as [|[k e] l IH]; intros m n Hnd Hin; [done|].
simpl. rewrite clear_visit_swept.
apply NoDup_cons in Hnd as [Hk Hnd].
destruct (swept now locks k e).
- rewrite IH; [|done|].
  + assert (m !! k = Some e) as Hke by (apply Hin; left).
    assert (base.size m ≠ 0%nat) as Hpos.
    { intros Hz%map_size_empty_inv. by rewrite Hz, lookup_empty in Hke. }
    rewrite map_size_delete, Hke. lia.
  + intros k' e' Hin'. rewrite lookup_delete_ne; [apply Hin; by right|].
    intros ->. apply Hk. apply list_elem_of_fmap. by exists (k', e').
- apply IH; [done|]. intros k' e' Hin'. apply Hin. by right.
Qed.

Lemma clear_size now c :
  size (clear now c) + Z.of_nat (clear_sweep now c).2 = size c.
Proof.
unfold size, clear, clear_sweep. simpl.
pose proof (sweep_size now (lockCallbacks c) (map_to_list (cache c)) (cache c) 0%nat)
  as Hs.
rewrite Nat.add_0_r in Hs. rewrite <- Hs; [lia| |].
- apply NoDup_fst_map_to_list.
- intros k e. by rewrite elem_of_map_to_list.
Qed.

(** The size of the store after [set], whichever way it ends. *)
Lemma set_size key v t now c h :
  size (step (OpSet key v t now) (c, h)).1 = size c
  ∨ (is_disabled c = false ∧ admits c = true ∧ cache c !! key = None
     ∧ size (step (OpSet key v t now) (c, h)).1 = size c + 1).
Proof.
destruct (step_set_cases key v t now c h) as [->|(Hen & Ha & ->)]; [by left|].
unfold size. rewrite unlockKey_cache. simpl. rewrite map_size_insert.
destruct (cache c !! key) eqn:Hk; [by left|right]. split_and!; [done..|]. simpl. lia.
Qed.

Lemma admits_true_lt c n :
  options c ≫= maxNumberOfCachedKeys = Some n → n ≠ 0 → admits c = true →
  size c < n.
Proof.
intros Hn Hn0. unfold admits, truthy_num. rewrite Hn. simpl.
rewrite (proj2 (Z.eqb_neq _ _)) by done. simpl. apply Z.ltb_lt.
Qed.

End store_size.

(** ** The sweep, further *)

Section sweep_further.
Import Promise.
Implicit Types (c : LocalCache) (h : heap) (k key : string) (p q : nat).
Implicit Types (v w : Js.value) (now : Z) (ws : list nat) (t : option Z) (o : op).
Implicit Types (m : gmap string LocalCacheItem) (l : list (string * LocalCacheItem)).

Lemma LocalCache_eq c1 c2 :
  options c1 = options c2 → ttl c1 = ttl c2 → cache c1 = cache c2 →
  lockCallbacks c1 = lockCallbacks c2 → c1 = c2.
Proof. destruct c1, c2. simpl. by intros -> -> -> ->. Qed.

Lemma swept_true now locks k e :
  swept now locks k e = true
  ↔ locks !! k = None ∧ inherited k = false ∧ expiredOn e ≤ now.
Proof.
unfold swept. rewrite andb_true_iff, unheld_true, Z.leb_le. tauto.
Qed.

Lemma sweep_count_le now locks l m n :
  (n ≤ (foldl (clear_visit now locks) (m, n) l).2)%nat.
Proof.
revert m n. induction l as [|[k e] l IH]; intros m n; [done|].
simpl. rewrite clear_visit_swept. destruct (swept now locks k e); [|done].
specialize (IH (delete k m) (S n)). lia.
Qed.

Lemma sweep_count_zero now locks l m n :
  (foldl (clear_visit now locks) (m, n) l).2 = n →
  (foldl (clear_visit now locks) (m, n) l).1 = m.
Proof.
revert m n. induction l as [|[k e] l IH]; intros m n; [done|].
simpl. rewrite clear_visit_swept. destruct (swept now locks k e); [|apply IH].
pose proof (sweep_count_le now locks l (delete k m) (S n)). lia.
Qed.

(** Reads that agree on [getSync] agree on [get], up to the entry store. *)
Lemma get_congr key w now c1 c2 h :
  is_disabled c1 = is_disabled c2 →
  getSync key now c1 = getSync key now c2 →
  lockCallbacks c1 = lockCallbacks c2 →
  (get key w now c1 h).1.2 = (get key w now c2 h).1.2
  ∧ (get key w now c1 h).2 = (get key w now c2 h).2
  ∧ lockCallbacks (get key w now c1 h).1.1 = lockCallbacks (get key w now c2 h).1.1.
Proof.
intros Hd Hg Hl. unfold get. rewrite Hd, Hg, Hl. simpl.
destruct (is_disabled c2); [done|].
destruct (truthy (getSync key now c2)); [done|].
destruct (truthy w); [|done]. by destruct (lock_slot (lockCallbacks c2) key).
Qed.

(** X1: an entry store with a configured nonzero maximum never holds more
    entries than the maximum (none at all when the maximum is negative),
    whatever calls the cache has served since it was built. *)
Theorem size_never_exceeds_maximum opts ops h0 n :
  opts ≫= maxNumberOfCachedKeys = Some n → n ≠ 0 →
  size (run ops (constructor opts, h0)).1 ≤ Z.max n 0.
Proof.
intros Hn Hn0.
assert (∀ c h, options c ≫= maxNumberOfCachedKeys = Some n →
          size c ≤ Z.max n 0 → size (run ops (c, h)).1 ≤ Z.max n 0) as Hinv.
{ induction ops as [|o ops IH]; intros c h Hmax Hsz; [done|]. simpl.
  destruct (step_options o c h) as [Ho _].
  assert (size (step o (c, h)).1 ≤ Z.max n 0) as Hsz'.
  { destruct o as [key v t now|key w now|now].
    - destruct (set_size key v t now c h) as [->|(_ & Ha & _ & ->)]; [done|].
      pose proof (admits_true_lt c n Hmax Hn0 Ha). lia.
    - change (step (OpGet key w now) (c, h)) with (get key w now c h).1.
      unfold size. by rewrite get_cache.
    - simpl. pose proof (clear_size now c). lia. }
  destruct (step o (c, h)) as [c' h']. simpl in *. apply IH; [by rewrite Ho|done]. }
apply Hinv; [done|]. unfold size. simpl. rewrite map_size_empty. lia.
Qed.

Lemma size_never_exceeds_maximum_witness :
  size (run (writes [("a", VNull); ("b", VNull); ("c", VNull)] 0)
            (constructor (options_max 2), Promise.empty)).1 ≤ 2.
Proof.
apply (size_never_exceeds_maximum (options_max 2)
         (writes [("a", VNull); ("b", VNull); ("c", VNull)] 0) Promise.empty 2);
  [reflexivity|lia].
Defined.

(** X2: the count a sweep reports is the number of entries it removed: the
    size before is the size after plus the count; and the count is zero,
    so that nothing is logged, exactly when the sweep left the instance as
    it was. *)
Theorem sweep_counts_its_deletions now c :
  size (clear now c) + Z.of_nat (clear_sweep now c).2 = size c
  ∧ ((clear_sweep now c).2 = 0%nat ↔ clear now c = c).
Proof.
split; [apply clear_size|]. split.
- intros Hz. apply LocalCache_eq; try done.
  unfold clear. simpl. by apply sweep_count_zero.
- intros Heq. pose proof (clear_size now c) as Hs. rewrite Heq in Hs. lia.
Qed.

(** X3: a sweep absorbs every earlier sweep: sweeping at [now1] and then
    at a later time [now2] leaves the instance a single sweep at [now2]
    leaves; in particular a sweep repeated at the same time changes
    nothing more. *)
Theorem later_sweep_absorbs_earlier now1 now2 c :
  now1 ≤ now2 → clear now2 (clear now1 c) = clear now2 c.
Proof.
intros Hle. apply LocalCache_eq; try done.
apply map_eq. intros k. rewrite !clear_lookup. simpl.
destruct (cache c !! k) as [e|]; [|done].
destruct (swept now1 (lockCallbacks c) k e) eqn:H1.
- apply swept_true in H1 as (Hk & Hi & He).
  assert (swept now2 (lockCallbacks c) k e = true) as ->; [|done].
  apply swept_true. split_and!; [done..|lia].
- done.
Qed.

Lemma later_sweep_absorbs_earlier_witness :
  clear 200 (clear 200 mixed_cache.1) = clear 200 mixed_cache.1.
Proof. apply (later_sweep_absorbs_earlier 200 200 mixed_cache.1). lia. Defined.

(** X4: a sweep cannot be observed by reads: at the time of the sweep or
    later, [getSync] gives the same value on the swept instance, and [get]
    settles or registers its promise in the same way, as on the instance
    before the sweep. *)
Theorem sweep_is_invisible_to_reads key w now now' c h :
  now ≤ now' →
  getSync key now' (clear now c) = getSync key now' c
  ∧ (get key w now' (clear now c) h).1.2 = (get key w now' c h).1.2
  ∧ (get key w now' (clear now c) h).2 = (get key w now' c h).2
  ∧ lockCallbacks (get key w now' (clear now c) h).1.1
    = lockCallbacks (get key w now' c h).1.1.
Proof.
intros Hle.
assert (getSync key now' (clear now c) = getSync key now' c) as Hg.
{ unfold getSync. change (is_disabled (clear now c)) with (is_disabled c).
  rewrite clear_lookup. destruct (negb (is_disabled c)); [|done].
  destruct (cache c !! key) as [e|]; [|done].
  destruct (swept now (lockCallbacks c) key e) eqn:Hs; [|done].
  apply swept_true in Hs as (_ & _ & He).
  assert ((now' <? expiredOn e) = false) as -> by (apply Z.ltb_ge; lia).
  by rewrite andb_false_r. }
split; [done|]. by apply get_congr.
Qed.

Lemma sweep_is_invisible_to_reads_witness :
  getSync "a" 300 (clear 200 mixed_cache.1) = getSync "a" 300 mixed_cache.1
  ∧ getSync "b" 300 (clear 200 mixed_cache.1) = VStr "y".
Proof.
split.
- apply (sweep_is_invisible_to_reads "a" VNull 200 300 mixed_cache.1 Promise.empty).
  lia.
- etrans.
  + apply (sweep_is_invisible_to_reads "b" VNull 200 300 mixed_cache.1 Promise.empty).
    lia.
  + reflexivity.
Defined.

(** X5: a sweep that finds no entry both expired and without a
    registration leaves the instance as it was and reports a count of
    zero. *)
Theorem sweep_without_expired_entries_is_idle now c :
  (∀ k e, cache c !! k = Some e → lockCallbacks c !! k = None → now < expiredOn e) →
  clear now c = c ∧ (clear_sweep now c).2 = 0%nat.
Proof.
intros Hlive.
assert (clear now c = c) as Heq.
{ apply LocalCache_eq; try done. apply map_eq. intros k. rewrite clear_lookup.
  destruct (cache c !! k) as [e|] eqn:Hk; [|done].
  destruct (swept now (lockCallbacks c) k e) eqn:Hs; [|done].
  apply swept_true in Hs as (Hn & _ & He). specialize (Hlive k e Hk Hn). lia. }
split; [done|].
pose proof (clear_size now c) as Hs. rewrite Heq in Hs. lia.
Qed.

Lemma sweep_without_expired_entries_is_idle_witness :
  clear 50 mixed_cache.1 = mixed_cache.1.
Proof.
apply (sweep_without_expired_entries_is_idle 50 mixed_cache.1).
intros k e Hk _.
change (cache mixed_cache.1)
  with (<["b" := {| value := VStr "y"; expiredOn := 5000 |}]>
          (<["a" := {| value := VStr "x"; expiredOn := 100 |}]>
             (∅ : gmap string LocalCacheItem))) in Hk.
apply lookup_insert_Some in Hk as [[_ <-]|[_ Hk]]; [reflexivity|].
apply lookup_insert_Some in Hk as [[_ <-]|[_ Hk]]; [reflexivity|].
by rewrite lookup_empty in Hk.
Defined.

End sweep_further.

(** ** Entries between sweeps *)

Section entries.
Import Promise.
Implicit Types (c : LocalCache) (h : heap) (k key : string) (p q : nat).
Implicit Types (v w : Js.value) (now : Z) (ws : list nat) (t : option Z) (o : op).
Implicit Types (kvs : list (string * Js.value)).

Lemma step_set_accepted key v t now c h :
  is_disabled c = false → admits c = true →
  step (OpSet key v t now) (c, h)
  = after_unlockKey key v
      (with_cache c
         (<[key := {| value := v; expiredOn := now + effectiveTtl t c |}]> (cache c)))
      h.
Proof.
intros Hen Ha. simpl. rewrite set_stored by done. simpl.
unfold after_unlockKey. by destruct (unlockKey _ _ _ _) as [[c2 h2]|].
Qed.

Lemma admits_lt c n :
  options c ≫= maxNumberOfCachedKeys = Some n → size c < n → admits c = true.
Proof.
intros Hn Hlt. unfold admits. rewrite Hn. simpl.
apply Z.ltb_lt in Hlt. rewrite Hlt. apply orb_true_r.
Qed.

Lemma is_disabled_step o c h : is_disabled (step o (c, h)).1 = is_disabled c.
Proof. unfold is_disabled. by destruct (step_options o c h) as [-> _]. Qed.

(** A call other than the sweep keeps every entry's key in the store. *)
Lemma entry_kept_step o c h k :
  is_clear o = false →
  is_Some (cache c !! k) → is_Some (cache (step o (c, h)).1 !! k).
Proof.
intros Ho Hk. destruct o as [key v t now|key w now|now]; [| |done].
- destruct (step_set_cases key v t now c h) as [->|(_ & _ & ->)]; [done|].
  rewrite unlockKey_cache. simpl. rewrite lookup_insert. by case_decide.
- change (step (OpGet key w now) (c, h)) with (get key w now c h).1.
  by rewrite get_cache.
Qed.

Lemma size_step o c h :
  is_clear o = false → size c ≤ size (step o (c, h)).1 ≤ size c + 1.
Proof.
intros Ho. destruct o as [key v t now|key w now|now]; [| |done].
- destruct (set_size key v t now c h) as [->|(_ & _ & _ & ->)]; lia.
- change (step (OpGet key w now) (c, h)) with (get key w now c h).1.
  unfold size. rewrite get_cache. lia.
Qed.

(** X6: only the sweep removes entries.  Through any calls of [set] and
    [get], a key that has an entry keeps having one, expired or not, and
    the number of entries does not go down; each call adds at most one. *)
Theorem only_the_sweep_removes_entries ops c h k :
  forallb (λ o, negb (is_clear o)) ops = true →
  (is_Some (cache c !! k) → is_Some (cache (run ops (c, h)).1 !! k))
  ∧ size c ≤ size (run ops (c, h)).1 ≤ size c + Z.of_nat (length ops).
Proof.
revert c h. induction ops as [|o ops IH]; intros c h Hops.
- simpl. split; [done|lia].
- simpl in Hops. apply andb_true_iff in Hops as [Ho%negb_true_iff Hops].
  pose proof (entry_kept_step o c h k Ho) as Hkept.
  pose proof (size_step o c h Ho) as Hsz.
  simpl. destruct (step o (c, h)) as [c' h']. simpl in *.
  destruct (IH c' h' Hops) as [Hk' Hsz']. split; [auto|lia].
Qed.

Lemma only_the_sweep_removes_entries_witness :
  is_Some (cache (run [OpSet "c" VNull None 9000; OpGet "a" (VBool true) 9000]
                      mixed_cache).1 !! "a").
Proof.
apply (only_the_sweep_removes_entries
         [OpSet "c" VNull None 9000; OpGet "a" (VBool true) 9000]
         mixed_cache.1 mixed_cache.2 "a"); [reflexivity|].
by eexists.
Defined.

(** Writes of distinct fresh keys that fit under the maximum are all
    accepted. *)
Lemma writes_accepted kvs now n c h :
  is_disabled c = false →
  options c ≫= maxNumberOfCachedKeys = Some n →
  NoDup kvs.*1 → (∀ k, k ∈ kvs.*1 → cache c !! k = None) →
  size c + Z.of_nat (length kvs) ≤ n →
  size (run (writes kvs now) (c, h)).1 = size c + Z.of_nat (length kvs)
  ∧ (∀ k v, (k, v) ∈ kvs →
       cache (run (writes kvs now) (c, h)).1 !! k
       = Some {| value := v; expiredOn := now + ttl c |})
  ∧ (∀ k, k ∉ kvs.*1 →
       cache (run (writes kvs now) (c, h)).1 !! k = cache c !! k).
Proof.
revert c h. induction kvs as [|[k v] kvs IH]; intros c h Hen Hmax Hnd Hfresh Hfit.
- simpl. split_and!; [lia| |done]. intros k v Hin. by apply elem_of_nil in Hin.
- rewrite fmap_cons in Hnd, Hfresh. simpl in Hnd, Hfresh.
  apply NoDup_cons in Hnd as [Hk Hnd].
  rewrite length_cons in Hfit.
  assert (admits c = true) as Ha by (apply (admits_lt c n); [done|lia]).
  pose proof (step_set_accepted k v None now c h Hen Ha) as Hstep.
  pose proof (is_disabled_step (OpSet k v None now) c h) as Hen'.
  destruct (step_options (OpSet k v None now) c h) as [Ho Ht].
  change (run (writes ((k, v) :: kvs) now) (c, h))
    with (run (writes kvs now) (step (OpSet k v None now) (c, h))).
  destruct (step (OpSet k v None now) (c, h)) as [c1 h1] eqn:Hc1.
  simpl in Hen', Ho, Ht.
  assert (cache c1 = <[k := {| value := v; expiredOn := now + ttl c |}]> (cache c))
    as Hcache.
  { pose proof (f_equal (λ x, cache x.1) Hstep) as Hx. simpl in Hx.
    by rewrite unlockKey_cache in Hx. }
  assert (size c1 = size c + 1) as Hsz.
  { unfold size. rewrite Hcache, map_size_insert_None; [lia|].
    apply Hfresh. left. }
  destruct (IH c1 h1) as (Hsize & Hstored & Hframe).
  + by rewrite Hen'.
  + by rewrite Ho.
  + done.
  + intros k' Hk'. rewrite Hcache, lookup_insert_ne; [apply Hfresh; by right|].
    by intros ->.
  + lia.
  + rewrite Ht in Hstored. split_and!.
    * rewrite length_cons. lia.
    * intros k' v' [[= -> ->]|Hin]%elem_of_cons.
      -- rewrite Hframe by done. rewrite Hcache. apply lookup_insert_eq.
      -- by apply Hstored.
    * intros k' [Hne Hk']%not_elem_of_cons.
      rewrite Hframe by done. rewrite Hcache. by apply lookup_insert_ne.
Qed.

(** X7: on a fresh enabled cache with a maximum of [n] keys, writes of
    [n] or fewer distinct keys are all accepted: every one of them is
    stored with the default TTL and the size is their number; once their
    number is [n], every further [set], of any key, throws. *)
Theorem distinct_writes_fill_the_cache opts kvs now n h0 :
  is_disabled (constructor opts) = false →
  opts ≫= maxNumberOfCachedKeys = Some n → n ≠ 0 →
  NoDup kvs.*1 → Z.of_nat (length kvs) ≤ n →
  let c := (run (writes kvs now) (constructor opts, h0)).1 in
  size c = Z.of_nat (length kvs)
  ∧ (∀ k v, (k, v) ∈ kvs →
       cache c !! k
       = Some {| value := v; expiredOn := now + ttl (constructor opts) |})
  ∧ (Z.of_nat (length kvs) = n →
       ∀ key v t now' h, set key v t now' c h = Thrown (MaxLimitReach n) c h).
Proof.
intros Hen Hmax Hn0 Hnd Hfit c.
assert (size (constructor opts) = 0) as Hz
  by (unfold size; simpl; by rewrite map_size_empty).
destruct (writes_accepted kvs now n (constructor opts) h0) as (Hsize & Hstored & _);
  [done|done|done| |lia|].
{ intros k _. apply lookup_empty. }
rewrite Hz in Hsize. fold c in Hsize, Hstored.
split_and!; [lia|done|].
intros Hfull key v t now' h.
destruct (run_options (writes kvs now) (constructor opts) h0) as [Ho _].
fold c in Ho. simpl in Ho.
assert (is_disabled c = false) as Hen' by (unfold is_disabled in *; by rewrite Ho).
assert (admits c = false) as Ha.
{ apply admits_false_iff. exists n. rewrite Ho. split_and!; [done..|lia]. }
rewrite set_thrown by done. by rewrite Ho, Hmax.
Qed.

Lemma distinct_writes_fill_the_cache_witness :
  size (run (writes [("a", VNull); ("b", VStr "y")] 0)
            (constructor (options_max 2), Promise.empty)).1 = 2.
Proof.
apply (distinct_writes_fill_the_cache (options_max 2)
         [("a", VNull); ("b", VStr "y")] 0 2 Promise.empty);
  [reflexivity|reflexivity|lia| |simpl; lia].
simpl. compute_done.
Defined.

(** A registration stays, and shields its entry, until a [set] of its key. *)
Lemma held_step o c h key :
  is_Some (lockCallbacks c !! key) → sets_key key o = false →
  cache (step o (c, h)).1 !! key = cache c !! key
  ∧ is_Some (lockCallbacks (step o (c, h)).1 !! key).
Proof.
intros [ws Hk] Ho. destruct o as [k v t now|k w now|now].
- simpl in Ho. apply String.eqb_neq in Ho.
  destruct (set_frame k key v t now c h Ho) as [-> ->]. eauto.
- change (step (OpGet k w now) (c, h)) with (get k w now c h).1.
  rewrite get_cache. split; [done|].
  destruct (get_lockCallbacks k w now c h) as [->|[[Hn ->]|(ws0 & Hs & ->)]].
  + eauto.
  + rewrite lookup_insert. case_decide; eauto.
  + rewrite lookup_insert. case_decide; eauto.
- change (step (OpClear now) (c, h)).1 with (clear now c).
  split; [|rewrite clear_lockCallbacks; eauto]. rewrite clear_lookup.
  destruct (cache c !! key) as [e|]; [|done].
  unfold swept. by rewrite unheld_registered by eauto.
Qed.

(** X8: a key that has a registration, be it the empty one of a producer
    that has not written yet, keeps its registration and its entry, expired
    or not, through any sweeps, reads and writes of other keys: only a
    [set] of that key releases it. *)
Theorem registered_key_is_held_until_set ops c h key :
  is_Some (lockCallbacks c !! key) →
  forallb (λ o, negb (sets_key key o)) ops = true →
  cache (run ops (c, h)).1 !! key = cache c !! key
  ∧ is_Some (lockCallbacks (run ops (c, h)).1 !! key).
Proof.
revert c h. induction ops as [|o ops IH]; intros c h Hk Hops; [done|].
simpl in Hops. apply andb_true_iff in Hops as [Ho%negb_true_iff Hops].
destruct (held_step o c h key Hk Ho) as [Hc Hl].
simpl. destruct (step o (c, h)) as [c' h']. simpl in *.
destruct (IH c' h' Hl Hops) as [-> Hl']. done.
Qed.

Lemma registered_key_is_held_until_set_witness :
  cache (run [OpClear 300; OpClear 90000; OpGet "k" VNull 90001] held_cache).1 !! "k"
  = Some {| value := VStr "x"; expiredOn := 100 |}.
Proof.
etrans.
- apply (registered_key_is_held_until_set
           [OpClear 300; OpClear 90000; OpGet "k" VNull 90001]
           held_cache.1 held_cache.2 "k"); [by eexists|reflexivity].
- by vm_compute.
Defined.

End entries.

(** ** Promises over the life of a cache *)

Section promises.
Import Promise.
Implicit Types (c : LocalCache) (h : heap) (k key : string) (p q : nat).
Implicit Types (v w : Js.value) (now : Z) (ws : list nat) (t : option Z) (o : op).

Lemma cells_call_all_pending_inv p ws v h :
  cells (call_all ws v h) !! p = Some Pending →
  cells h !! p = Some Pending ∧ p ∉ ws.
Proof.
intros Hp. destruct (decide (p ∈ ws)) as [Hin|Hnin].
- destruct (cells h !! p) as [st|] eqn:Hold.
  + assert (st = Pending ∨ st ≠ Pending) as [->|Hst]
      by (destruct st; auto).
    * rewrite (cells_call_all_in p ws v h Hin Hold) in Hp.
      injection Hp as Hp. by apply outcome_not_pending in Hp.
    * rewrite (cells_call_all_settled p ws v st h Hold Hst) in Hp. congruence.
  + apply lookup_lt_Some in Hp. rewrite length_cells_call_all in Hp.
    apply lookup_ge_None in Hold. lia.
- by rewrite cells_call_all_notin in Hp.
Qed.

Lemma no_orphan_constructor opts : no_orphan (constructor opts) empty.
Proof. intros p Hp. by vm_compute in Hp. Qed.

Lemma no_orphan_step o c h :
  no_orphan c h → no_orphan (step o (c, h)).1 (step o (c, h)).2.
Proof.
intros Hno. destruct o as [key v t now|key w now|now]; [| |done].
- destruct (step_set_cases key v t now c h) as [->|(_ & _ & ->)]; [done|].
  intros p Hp. rewrite unlockKey_heap in Hp.
  apply cells_call_all_pending_inv in Hp as [Hp Hnin].
  destruct (Hno p Hp) as (k & ws & Hk & Hin).
  exists k, ws. split; [|done].
  rewrite unlockKey_lockCallbacks. simpl. rewrite lookup_delete_ne; [done|].
  intros ->. simpl in Hnin. by rewrite Hk in Hnin.
- change (step (OpGet key w now) (c, h)) with (get key w now c h).1.
  assert (∀ h', (∀ p, cells h' !! p = Some Pending → cells h !! p = Some Pending) →
            no_orphan c h') as Hold.
  { intros h' Hh' p Hp. by apply Hno, Hh'. }
  assert (∀ v, no_orphan c (resolve (length (cells h)) v (alloc h).2)) as Hres.
  { intros v. apply Hold. intros p Hp. rewrite lookup_alloc_resolve in Hp.
    case_decide; [|done]. injection Hp as Hp. by apply outcome_not_pending in Hp. }
  destruct (is_disabled c) eqn:Hd.
  { rewrite get_disabled by done. cbn [fst snd]. apply Hold. intros p Hp.
    rewrite lookup_alloc_returned in Hp. by case_decide. }
  destruct (truthy (getSync key now c)) eqn:Hg; [rewrite get_hit by done; apply Hres|].
  destruct (truthy w) eqn:Hw; [|rewrite get_miss_nowait by done; apply Hres].
  destruct (lockCallbacks c !! key) as [ws|] eqn:Hk.
  { rewrite (get_miss_wait _ _ _ _ _ ws) by done. intros p Hp.
    cbn [fst snd] in *. rewrite lookup_alloc in Hp. case_decide as Hpl.
    - exists key, (ws ++ [length (cells h)]). simpl.
      rewrite lookup_insert_eq. split; [done|]. subst.
      apply elem_of_app. right. left.
    - destruct (Hno p Hp) as (k' & ws' & Hk' & Hin). simpl.
      destruct (decide (k' = key)) as [->|Hne].
      + exists key, (ws ++ [length (cells h)]). rewrite lookup_insert_eq.
        split; [done|]. apply elem_of_app. left. congruence.
      + exists k', ws'. by rewrite lookup_insert_ne. }
  destruct (inherited key) eqn:Hi.
  + rewrite get_miss_inherited by done. cbn [fst snd]. apply Hold. intros p Hp.
    rewrite lookup_alloc_reject in Hp. by case_decide.
  + rewrite get_miss_first by done. intros p Hp.
    destruct (Hres VNull p Hp) as (k' & ws' & Hk' & Hin).
    exists k', ws'. simpl. rewrite lookup_insert_ne; [done|]. congruence.
Qed.

Lemma resolved_once_call_all ws v h :
  NoDup ws → (∀ p, p ∈ ws → cells h !! p = Some Pending) →
  resolved_once false h → resolved_once false (call_all ws v h).
Proof.
intros Hnd Hpend Hro p. rewrite times_called_call_all, Hro.
destruct (decide (p ∈ ws)) as [Hin|Hnin].
- rewrite (cells_call_all_in p ws v h Hin (Hpend p Hin)).
  rewrite (Hpend p Hin), filter_eq_NoDup_in by done.
  unfold outcome. by destruct (thenable v).
- rewrite cells_call_all_notin, filter_eq_notin by done. lia.
Qed.

Lemma resolved_once_fresh d h :
  resolved_once d h → times_called (length (cells h)) h = 0%nat.
Proof. intros Hro. by rewrite Hro, lookup_ge_None_2. Qed.

Lemma resolved_once_step o c h :
  wf c h → resolved_once (is_disabled c) h →
  resolved_once (is_disabled c) (step o (c, h)).2.
Proof.
intros Hwf Hro. destruct o as [key v t now|key w now|now]; [| |done].
- destruct (step_set_cases key v t now c h) as [->|(Hen & _ & ->)]; [done|].
  rewrite unlockKey_heap. simpl. rewrite Hen in *.
  destruct (lockCallbacks c !! key) as [ws|] eqn:Hk; [|done]. simpl.
  apply resolved_once_call_all; [|intros p Hp|done].
  + eapply wf_nodup; eauto.
  + eapply wf_pending; eauto.
- change (step (OpGet key w now) (c, h)) with (get key w now c h).1.
  pose proof (resolved_once_fresh _ _ Hro) as Hfresh.
  destruct (get_heap key w now c h) as [[Hd ->]|[Hen [[v ->]|[->| ->]]]];
    rewrite ?Hd, ?Hen in *; intros p.
  + rewrite lookup_alloc_returned.
    change (times_called p (alloc_returned VNull h).2) with (times_called p h).
    case_decide; [by subst|apply Hro].
  + rewrite lookup_alloc_resolve, times_called_resolve.
    change (times_called p (alloc h).2) with (times_called p h).
    case_decide as Hp.
    * subst. rewrite decide_True, Hfresh by done.
      unfold outcome. by destruct (thenable v).
    * rewrite decide_False, Hro by done. lia.
  + rewrite lookup_alloc.
    change (times_called p (alloc h).2) with (times_called p h).
    case_decide; [by subst|apply Hro].
  + rewrite lookup_alloc_reject.
    change (times_called p (reject (length (cells h)) (alloc h).2))
      with (times_called p h).
    case_decide; [by subst|apply Hro].
Qed.

(** The three invariants hold in every state a cache goes through. *)
Lemma reachable_invariants opts ops :
  wf (run ops (constructor opts, empty)).1 (run ops (constructor opts, empty)).2
  ∧ no_orphan (run ops (constructor opts, empty)).1
              (run ops (constructor opts, empty)).2
  ∧ resolved_once (is_disabled (constructor opts))
                  (run ops (constructor opts, empty)).2.
Proof.
assert (∀ c h, wf c h → no_orphan c h → resolved_once (is_disabled c) h →
          wf (run ops (c, h)).1 (run ops (c, h)).2
          ∧ no_orphan (run ops (c, h)).1 (run ops (c, h)).2
          ∧ resolved_once (is_disabled c) (run ops (c, h)).2) as Hinv.
{ induction ops as [|o ops IH]; intros c h Hwf Hno Hro; [done|]. simpl.
  pose proof (wf_step o c h Hwf) as Hwf'.
  pose proof (no_orphan_step o c h Hno) as Hno'.
  pose proof (resolved_once_step o c h Hwf Hro) as Hro'.
  pose proof (is_disabled_step o c h) as Hd.
  destruct (step o (c, h)) as [c' h']. simpl in *. rewrite <- Hd.
  apply IH; [done|done|by rewrite Hd]. }
apply Hinv.
- apply wf_constructor.
- apply no_orphan_constructor.
- intros p. by destruct (is_disabled (constructor opts)).
Qed.

(** X9: no waiter is lost.  In every state of a cache that started with
    no promises, a promise is unresolved, its [resolve] function not called
    and its executor not failed, exactly when its callback is held in the
    registration of some key: every caller that was not answered at once
    is queued where a [set] of its key will find it. *)
Theorem unresolved_iff_registered opts ops p :
  cells (run ops (constructor opts, empty)).2 !! p = Some Pending
  ↔ ∃ k ws, lockCallbacks (run ops (constructor opts, empty)).1 !! k = Some ws
            ∧ p ∈ ws.
Proof.
destruct (reachable_invariants opts ops) as (Hwf & Hno & _). split.
- apply Hno.
- intros (k & ws & Hk & Hp). eapply wf_pending; eauto.
Qed.


(** X11: in every state of a cache that started with no promises, a
    callback is held at one place only: if it is at position [i] of the
    registration of [k1] and at position [j] of that of [k2], then
    [k1 = k2] and [i = j]. *)
Theorem callback_is_registered_in_one_place opts ops k1 k2 ws1 ws2 i j p :
  lockCallbacks (run ops (constructor opts, empty)).1 !! k1 = Some ws1 →
  lockCallbacks (run ops (constructor opts, empty)).1 !! k2 = Some ws2 →
  ws1 !! i = Some p → ws2 !! j = Some p →
  k1 = k2 ∧ i = j.
Proof.
intros Hk1 Hk2 Hi Hj.
destruct (reachable_invariants opts ops) as (Hwf & _ & _).
assert (k1 = k2) as <-.
{ eapply (wf_disjoint _ _ Hwf); eauto; by eapply list_elem_of_lookup_2. }
split; [done|]. rewrite Hk1 in Hk2. injection Hk2 as <-.
eapply NoDup_lookup; [|done..]. eapply wf_nodup; eauto.
Qed.

Lemma callback_is_registered_in_one_place_witness : "k" = "k" ∧ 1%nat = 1%nat.
Proof.
apply (callback_is_registered_in_one_place None
         [OpGet "k" (VBool true) 0; OpGet "k" (VNum 2000) 0; OpGet "k" (VBool true) 0]
         "k" "k" [1%nat; 2%nat] [1%nat; 2%nat] 1 1 2%nat);
  reflexivity.
Defined.

End promises.

(** ** Reads and writes over the life of a cache *)

Section life.
Import Promise.
Implicit Types (c : LocalCache) (h : heap) (k key : string) (p q : nat).
Implicit Types (v w : Js.value) (now : Z) (ws : list nat) (t : option Z) (o : op).

(** X13: the round trip for truthy values.  On an enabled cache, in the
    state a [set(key, v)] that passes the size check leaves, with [v]
    truthy, every read of [key] before the entry expires gives [v]:
    [getSync] returns it, and [get], with any wait argument, resolves its
    promise with it at once (the promise is fulfilled with [v], or follows
    [v] when [v] is a thenable) and leaves the instance as it is,
    registering nothing. *)
Theorem truthy_value_round_trip key v t now now' w c h :
  is_disabled c = false → admits c = true →
  truthy v = true → now' < now + effectiveTtl t c →
  getSync key now' (step (OpSet key v t now) (c, h)).1 = v
  ∧ (get key w now' (step (OpSet key v t now) (c, h)).1
       (step (OpSet key v t now) (c, h)).2).1.1
    = (step (OpSet key v t now) (c, h)).1
  ∧ cells (get key w now' (step (OpSet key v t now) (c, h)).1
             (step (OpSet key v t now) (c, h)).2).1.2
      !! (get key w now' (step (OpSet key v t now) (c, h)).1
            (step (OpSet key v t now) (c, h)).2).2
    = Some (if thenable v then Following v else Fulfilled v).
Proof.
intros Hen Ha Hv Hlt.
exact (set_get_truthy key v t now now' w c h Hen Ha Hv Hlt).
Qed.

Lemma truthy_value_round_trip_witness :
  getSync "constructor" 1099
    (step (OpSet "constructor" (VStr "v") (Some 100) 1000) roomy_cache).1
  = VStr "v".
Proof.
apply (truthy_value_round_trip "constructor" (VStr "v") (Some 100) 1000 1099
         (VBool true) roomy_cache.1 roomy_cache.2); reflexivity.
Defined.

Lemma ttl_constructor_nonzero opts : ttl (constructor opts) ≠ 0.
Proof.
simpl. unfold num_or, DEFAULT_TTL_MS.
destruct (opts ≫= defaultTTLMs) as [d|]; [|done].
destruct (Z.eqb_spec d 0); [done|done].
Qed.

(** X14: no write is stored with a TTL of zero, at any point of the life
    of a cache; and when the configured default TTL and the TTL argument
    are not negative, the TTL is positive, so that a truthy value written
    by a [set] that passes the size check is read back at the very time of
    the write. *)
Theorem effective_ttl_is_never_zero opts ops h0 t :
  effectiveTtl t (run ops (constructor opts, h0)).1 ≠ 0
  ∧ ((∀ d, opts ≫= defaultTTLMs = Some d → 0 ≤ d) → (∀ n, t = Some n → 0 ≤ n) →
       0 < effectiveTtl t (run ops (constructor opts, h0)).1
       ∧ ∀ key v now h,
           is_disabled (run ops (constructor opts, h0)).1 = false →
           admits (run ops (constructor opts, h0)).1 = true →
           truthy v = true →
           getSync key now
             (step (OpSet key v t now) ((run ops (constructor opts, h0)).1, h)).1
           = v).
Proof.
destruct (run_options ops (constructor opts) h0) as [_ Httl].
pose proof (ttl_constructor_nonzero opts) as Hnz.
set (c := (run ops (constructor opts, h0)).1) in *.
assert (effectiveTtl t c ≠ 0) as Hne.
{ unfold effectiveTtl, num_or. rewrite Httl.
  destruct t as [n|]; [|done]. by destruct (Z.eqb_spec n 0). }
split; [done|]. intros Hd Ht.
assert (0 ≤ ttl (constructor opts)) as Hd'.
{ simpl. unfold num_or, DEFAULT_TTL_MS.
  destruct (opts ≫= defaultTTLMs) as [d|] eqn:Hdd; [|lia].
  specialize (Hd d eq_refl). destruct (Z.eqb_spec d 0); lia. }
assert (0 < effectiveTtl t c) as Hpos.
{ assert (0 ≤ effectiveTtl t c); [|lia].
  unfold effectiveTtl, num_or. rewrite Httl.
  destruct t as [n|]; [|done].
  specialize (Ht n eq_refl). by destruct (Z.eqb_spec n 0). }
split; [done|]. intros key v now h Hen Ha Hv.
apply (set_get_truthy key v t now now VNull c h Hen Ha Hv). lia.
Qed.

(** X15: the configuration is fixed at construction: through every call
    the options and the default TTL of the instance stay what they were,
    so whether the cache is disabled and the TTL a write gets do not
    change. *)
Theorem configuration_is_immutable ops c h :
  options (run ops (c, h)).1 = options c
  ∧ ttl (run ops (c, h)).1 = ttl c
  ∧ is_disabled (run ops (c, h)).1 = is_disabled c
  ∧ ∀ t, effectiveTtl t (run ops (c, h)).1 = effectiveTtl t c.
Proof.
destruct (run_options ops c h) as [Ho Ht]. split_and!; [done..| |].
- unfold is_disabled. by rewrite Ho.
- intros t. unfold effectiveTtl. by rewrite Ht.
Qed.

Lemma held_keys_miss_mono now now' c :
  now ≤ now' → held_keys_miss now c → held_keys_miss now' c.
Proof.
intros Hle Hh k e Hk He. destruct (Hh k e Hk He) as [?|?]; [by left|right; lia].
Qed.

Lemma getSync_null_inv key now c e :
  is_disabled c = false → cache c !! key = Some e →
  truthy (getSync key now c) = false →
  truthy (value e) = false ∨ expiredOn e ≤ now.
Proof.
intros Hen He. unfold getSync. rewrite Hen, He. simpl.
destruct (truthy (value e)) eqn:Hv; [|by left].
destruct (Z.ltb_spec now (expiredOn e)); simpl; [congruence|by right].
Qed.

Lemma held_keys_miss_step o c h :
  held_keys_miss (op_time o) c → held_keys_miss (op_time o) (step o (c, h)).1.
Proof.
intros Hh. destruct o as [key v t now|key w now|now].
- destruct (step_set_cases key v t now c h) as [->|(_ & _ & ->)]; [done|].
  intros k e. rewrite unlockKey_lockCallbacks, unlockKey_cache. simpl.
  rewrite lookup_delete. case_decide; [by intros [? ?]|].
  rewrite lookup_insert_ne by done. apply Hh.
- change (step (OpGet key w now) (c, h)) with (get key w now c h).1.
  intros k e. rewrite get_cache. simpl in Hh.
  destruct (is_disabled c) eqn:Hd; [rewrite get_disabled by done; apply Hh|].
  destruct (truthy (getSync key now c)) eqn:Hg; [rewrite get_hit by done; apply Hh|].
  destruct (truthy w) eqn:Hw; [|rewrite get_miss_nowait by done; apply Hh].
  destruct (lockCallbacks c !! key) as [ws|] eqn:Hk.
  + rewrite (get_miss_wait _ _ _ _ _ ws) by done. simpl.
    rewrite lookup_insert. case_decide; [subst|apply Hh].
    intros _. apply Hh. by rewrite Hk.
  + destruct (inherited key) eqn:Hi;
      [rewrite get_miss_inherited by done; apply Hh|].
    rewrite get_miss_first by done. simpl.
    rewrite lookup_insert. case_decide; [subst|apply Hh].
    intros _ He. by eapply getSync_null_inv.
- change (step (OpClear now) (c, h)).1 with (clear now c).
  intros k e. rewrite clear_lockCallbacks, clear_lookup. intros Hk.
  destruct (cache c !! k) as [e'|] eqn:He; [|done].
  destruct (swept now (lockCallbacks c) k e'); [done|].
  intros [= <-]. by apply (Hh k e').
Qed.

Lemma held_keys_miss_run ops now c h :
  in_time_order now ops = true → held_keys_miss now c →
  held_keys_miss (last_time now ops) (run ops (c, h)).1.
Proof.
revert now c h. induction ops as [|o ops IH]; intros now c h Hord Hh; [done|].
simpl in Hord. apply andb_true_iff in Hord as [Hle%Z.leb_le Hord].
pose proof (held_keys_miss_step o c h (held_keys_miss_mono _ _ _ Hle Hh)) as Hh'.
simpl. destruct (step o (c, h)) as [c' h']. by apply IH.
Qed.

(** X16: while a key has a registration every read of it misses.  If the
    calls a cache has served came in the order of their times, then at the
    time of the last call or later [getSync] gives [null] for every key
    that has a registration, so a waiting [get] of such a key joins the
    registration and stays pending. *)
Theorem registered_key_reads_miss opts ops now0 h0 key now h :
  in_time_order now0 ops = true →
  last_time now0 ops ≤ now →
  is_Some (lockCallbacks (run ops (constructor opts, h0)).1 !! key) →
  getSync key now (run ops (constructor opts, h0)).1 = VNull
  ∧ ∀ w, truthy w = true →
      is_disabled (run ops (constructor opts, h0)).1 = false →
      cells (get key w now (run ops (constructor opts, h0)).1 h).1.2
        !! (get key w now (run ops (constructor opts, h0)).1 h).2
      = Some Pending.
Proof.
intros Hord Hle Hk.
assert (held_keys_miss now0 (constructor opts)) as Hh0.
{ intros k e _ He. simpl in He. by rewrite lookup_empty in He. }
pose proof (held_keys_miss_run ops now0 (constructor opts) h0 Hord Hh0) as Hh.
apply (held_keys_miss_mono _ now) in Hh; [|done].
set (c := (run ops (constructor opts, h0)).1) in *.
assert (getSync key now c = VNull) as Hg.
{ unfold getSync. destruct (negb (is_disabled c)); [|done].
  destruct (cache c !! key) as [e|] eqn:He; [|done].
  destruct (Hh key e Hk He) as [-> | Hexp]; [done|].
  apply Z.ltb_ge in Hexp. by rewrite Hexp, andb_false_r. }
split; [done|]. intros w Hw Hen. destruct Hk as [ws Hk].
rewrite (get_miss_wait _ _ _ _ _ ws); [|done|by rewrite Hg|done..].
simpl. by rewrite lookup_app_r, Nat.sub_diag.
Qed.

Lemma registered_key_reads_miss_witness :
  getSync "k" 7000
    (run [OpSet "k" (VStr "x") (Some 100) 0; OpGet "k" (VBool true) 200]
         (constructor None, Promise.empty)).1
  = VNull.
Proof.
apply (registered_key_reads_miss None
         [OpSet "k" (VStr "x") (Some 100) 0; OpGet "k" (VBool true) 200]
         0 Promise.empty "k" 7000 Promise.empty);
  [reflexivity|simpl; lia|by eexists].
Defined.

End life.

Lemma effective_ttl_is_never_zero_witness :
  getSync "k" 1000 (step (OpSet "k" (VStr "v") (Some 5) 1000) roomy_cache).1
  = VStr "v".
Proof.
destruct (effective_ttl_is_never_zero (options_max 3)
            [OpSet "a" (VStr "x") None 0] Promise.empty (Some 5)) as [_ Hpos].
destruct Hpos as [_ Hread].
- intros d Hd. vm_compute in Hd. discriminate Hd.
- intros n [= <-]. lia.
- apply (Hread "k" (VStr "v") 1000 roomy_cache.2); reflexivity.
Defined.
